(** * AI-Tutor-Avatar: sentence buffering, speech queue and turn handling

    A shallow embedding of the Python sources

      - [utils.py]           ([sanitize_input], [split_into_sentences],
                              class [MessageBuffer]),
      - [avatar_service.py]  (class [AvatarService]),
      - [openai_service.py]  (class [OpenAIService]),
      - [app.py]             (the Streamlit handlers),

    followed by the properties of the conversation-turn orchestrator that
    the specification states about them.

    Conventions.  A Python [str] is a sequence of Unicode code points and is
    modelled as [list N].  Python integers are [Z].  Logging calls have no
    effect on the state and are left out.  External collaborators (the HTTP
    endpoint, the speech synthesizer, the clock) are inputs of the functions
    that consult them. *)

From Stdlib Require Import ZArith NArith Lia Bool Ascii String DecimalString.
From stdpp Require Import base list gmap.

Local Open Scope N_scope.

(* ===================================================================== *)
(** * Part I: the embedding *)
(* ===================================================================== *)

(** ** Python built-ins used by the sources *)

Module Py.

Abbreviation str := (list N).

(** An ASCII literal as a Python string. *)
Definition lit (s : string) : str :=
  List.map N_of_ascii (list_ascii_of_string s).

(** Truth value of a string: non-empty. *)
Definition truthy (s : str) : bool :=
  match s with [] => false | _ :: _ => true end.

(** [str.isspace] on one code point (CPython's whitespace table). *)
Definition isspace (c : N) : bool :=
  ((0x09 <=? c) && (c <=? 0x0D)) || ((0x1C <=? c) && (c <=? 0x20))
  || (c =? 0x85) || (c =? 0xA0) || (c =? 0x1680)
  || ((0x2000 <=? c) && (c <=? 0x200A))
  || (c =? 0x2028) || (c =? 0x2029) || (c =? 0x202F)
  || (c =? 0x205F) || (c =? 0x3000).

(** Removal of leading, and of leading and trailing, characters of a
    class [ws]. *)
Fixpoint drop_leading (ws : N -> bool) (s : str) : str :=
  match s with
  | [] => []
  | c :: s' => if ws c then drop_leading ws s' else s
  end.

Definition strip_by (ws : N -> bool) (s : str) : str :=
  rev (drop_leading ws (rev (drop_leading ws s))).

(** [s.strip()] *)
Definition strip (s : str) : str := strip_by isspace s.

(** [s[:n]] for an arbitrary integer [n]; a negative [n] counts from the
    end of the string. *)
Definition slice_to (s : str) (n : Z) : str :=
  if (n <? 0)%Z
  then take (Z.to_nat (Z.of_nat (length s) + n)) s
  else take (Z.to_nat n) s.

(** [x in xs] for a list of strings. *)
Definition contains (xs : list str) (x : str) : bool :=
  existsb (fun y => bool_decide (x = y)) xs.

(** [s.startswith(p)] *)
Fixpoint startswith (s p : str) : bool :=
  match p, s with
  | [], _ => true
  | a :: p', b :: s' => (a =? b) && startswith s' p'
  | _ :: _, [] => false
  end.

(** [p in s] for two strings: [p] occurs in [s]. *)
Fixpoint occurs_in (p s : str) : bool :=
  startswith s p
  || match s with
     | [] => false
     | _ :: s' => occurs_in p s'
     end.

(** [s.split(sep)] for a separator of one character. *)
Fixpoint split (s : str) (sep : N) : list str :=
  match s with
  | [] => [[]]
  | c :: s' =>
      if c =? sep then [] :: split s' sep
      else match split s' sep with
           | w :: ws => (c :: w) :: ws
           | [] => [[c]]
           end
  end.

(** [s.replace(c, by)] for a pattern of one character. *)
Definition replace (s : str) (c : N) (by_ : str) : str :=
  flat_map (fun d => if d =? c then by_ else [d]) s.

(** [html.escape(s)], with [quote=True]: the five replacements of the
    library function, in its order. *)
Definition html_escape (s : str) : str :=
  let s := replace s 0x26 (lit "&amp;") in
  let s := replace s 0x3C (lit "&lt;") in
  let s := replace s 0x3E (lit "&gt;") in
  let s := replace s 0x22 (lit "&quot;") in
  replace s 0x27 (lit "&#x27;").

(** [str(n)] and [f"{n}"] for an integer. *)
Definition str_of_int (n : Z) : str :=
  lit (NilZero.string_of_int (Z.to_int n)).

(** [xs[-n:]] for a positive [n]. *)
Definition last_items {A : Type} (n : nat) (xs : list A) : list A :=
  drop (length xs - n) xs.

End Py.

(** ** utils.py *)

Module Utils.
Import Py.

(** The character class of the [re.sub] in [sanitize_input]:
    [[\x00-\x08\x0B-\x0C\x0E-\x1F\x7F-\x9F]]. *)
Definition removed_control (c : N) : bool :=
  (c <=? 0x08) || ((0x0B <=? c) && (c <=? 0x0C))
  || ((0x0E <=? c) && (c <=? 0x1F)) || ((0x7F <=? c) && (c <=? 0x9F)).

Definition sanitize_input (text : str) (max_length : Z) : str :=
  if negb (truthy text) then []
  else
    let text1 := List.filter (fun c => negb (removed_control c)) text in
    let text2 := strip text1 in
    if (Z.of_nat (length text2) >? max_length)%Z
    then slice_to text2 max_length
    else text2.

Definition sanitize_input_default_max_length : Z := 5000%Z.

(** [split_into_sentences]: the loop over the characters of [text], with
    the local variables [sentences] and [current_sentence] as
    accumulators. *)
Definition split_default_punctuations : list str :=
  [lit "."; lit "?"; lit "!"; lit ":"; lit ";";
   [0x3002]; [0xFF1F]; [0xFF01]; [0xFF1A]; [0xFF1B]].

Fixpoint split_loop (punctuations : list str) (text : str)
    (sentences : list str) (current_sentence : str) : list str * str :=
  match text with
  | [] => (sentences, current_sentence)
  | char :: rest =>
      let current_sentence := current_sentence ++ [char] in
      if contains punctuations [char]
      then split_loop punctuations rest
             (sentences ++ [strip current_sentence]) []
      else split_loop punctuations rest sentences current_sentence
  end.

Definition split_into_sentences (text : str)
    (punctuations : option (list str)) : list str :=
  let punctuations :=
    match punctuations with
    | None => split_default_punctuations
    | Some ps => ps
    end in
  let '(sentences, current_sentence) :=
    split_loop punctuations text [] [] in
  if truthy (strip current_sentence)
  then sentences ++ [strip current_sentence]
  else sentences.

(** *** class MessageBuffer *)

Record MessageBuffer := mkMessageBuffer {
  buffer : str;
  complete_sentences : list str;
  punctuations : list str
}.

Definition default_punctuations : list str :=
  [lit "."; lit "?"; lit "!"; lit ":"; lit ";"].

(** [__init__]: [sentence_punctuations or ['.', '?', '!', ':', ';']]. *)
Definition init (sentence_punctuations : option (list str))
    : MessageBuffer :=
  {| buffer := [];
     complete_sentences := [];
     punctuations :=
       match sentence_punctuations with
       | Some (p :: ps) => p :: ps
       | _ => default_punctuations
       end |}.

(** [self.buffer and self.buffer[-1] in self.punctuations] *)
Definition ends_with_punctuation (ps : list str) (buf : str) : bool :=
  match last buf with
  | None => false
  | Some c => contains ps [c]
  end.

Definition add_chunk (mb : MessageBuffer) (chunk : str)
    : MessageBuffer * list str :=
  let buf := buffer mb ++ chunk in
  if ends_with_punctuation (punctuations mb) buf
  then ({| buffer := [];
           complete_sentences := complete_sentences mb ++ [buf];
           punctuations := punctuations mb |},
        [buf])
  else ({| buffer := buf;
           complete_sentences := complete_sentences mb;
           punctuations := punctuations mb |},
        []).

Definition flush (mb : MessageBuffer) : MessageBuffer * option str :=
  if truthy (buffer mb)
  then ({| buffer := [];
           complete_sentences := complete_sentences mb ++ [buffer mb];
           punctuations := punctuations mb |},
        Some (buffer mb))
  else (mb, None).

Definition get_all (mb : MessageBuffer) : str :=
  concat (complete_sentences mb).

Definition clear (mb : MessageBuffer) : MessageBuffer :=
  {| buffer := [];
     complete_sentences := [];
     punctuations := punctuations mb |}.

(** A client of the buffer: any interleaving of [add_chunk] and [flush]
    calls.  [run] threads the buffer through the calls and collects, in
    emission order, every string they return. *)
Inductive call :=
| AddChunk (chunk : str)
| Flush.

Definition returned (o : option str) : list str :=
  match o with Some s => [s] | None => [] end.

Definition do_call (mb : MessageBuffer) (c : call)
    : MessageBuffer * list str :=
  match c with
  | AddChunk chunk => add_chunk mb chunk
  | Flush => let '(mb', o) := flush mb in (mb', returned o)
  end.

Fixpoint run (mb : MessageBuffer) (cs : list call)
    : MessageBuffer * list str :=
  match cs with
  | [] => (mb, [])
  | c :: cs' =>
      let '(mb1, out1) := do_call mb c in
      let '(mb2, out2) := run mb1 cs' in
      (mb2, out1 ++ out2)
  end.

(** The fragments handed to the buffer by a sequence of calls. *)
Definition fragments (cs : list call) : list str :=
  flat_map (fun c => match c with AddChunk s => [s] | Flush => [] end) cs.

(** Feeding a list of fragments, one [add_chunk] per fragment. *)
Definition feed (mb : MessageBuffer) (chunks : list str)
    : MessageBuffer * list str :=
  run mb (List.map AddChunk chunks).

(** *** The smaller helpers of the module *)

Definition html_encode (text : str) : str := html_escape text.

Definition azure_domains : list str :=
  [lit ".openai.azure.com";
   lit ".cognitiveservices.azure.com";
   lit ".search.windows.net";
   lit ".speech.microsoft.com"].

Definition validate_azure_endpoint (endpoint : str) : bool :=
  if negb (truthy endpoint) then false
  else if negb (startswith endpoint (lit "https://")) then false
  else existsb (fun domain => occurs_in domain endpoint) azure_domains.

(** [locale.split('-')[0] if '-' in locale else locale] *)
Definition get_language_from_locale (locale : str) : str :=
  if occurs_in (lit "-") locale
  then match split locale 0x2D with
       | first :: _ => first
       | [] => []
       end
  else locale.

End Utils.

(** ** avatar_service.py *)

Module Avatar.
Import Py.

(** The service object, together with the two things that can be observed
    of the speech SDK it drives: [synthesizing] holds the texts of the
    [speak_ssml_async(ssml).get()] calls that have not returned yet, and
    [rendered] the texts of all synthesis requests issued so far, oldest
    first.  The SSML document is built from the text alone
    ([_create_ssml]) and does not influence the control flow. *)
Record AvatarService := mkAvatarService {
  avatar_synthesizer : bool;
  is_speaking : bool;
  spoken_text_queue : list str;
  synthesizing : list str;
  rendered : list str
}.

(** [__init__] *)
Definition init : AvatarService :=
  {| avatar_synthesizer := false;
     is_speaking := false;
     spoken_text_queue := [];
     synthesizing := [];
     rendered := [] |}.

(** [not text or not text.strip()] *)
Definition blank (text : str) : bool :=
  negb (truthy text) || negb (truthy (strip text)).

(** How a blocking synthesis call ends. *)
Inductive result_reason :=
| SynthesizingAudioCompleted
| Canceled
| OtherReason.

Inductive synthesis :=
| Result (reason : result_reason)
| Exception.

(** [_speak_next], up to the blocking synthesis call.  The second
    component is the value returned when the method returns at once. *)
Definition _speak_next (s : AvatarService) (text : str)
    : AvatarService * option bool :=
  if blank text then (s, Some false)
  else ({| avatar_synthesizer := avatar_synthesizer s;
           is_speaking := true;
           spoken_text_queue := spoken_text_queue s;
           synthesizing := synthesizing s ++ [text];
           rendered := rendered s ++ [text] |},
        None).

Definition set_is_speaking (s : AvatarService) (b : bool)
    : AvatarService :=
  {| avatar_synthesizer := avatar_synthesizer s;
     is_speaking := b;
     spoken_text_queue := spoken_text_queue s;
     synthesizing := synthesizing s;
     rendered := rendered s |}.

Definition set_spoken_text_queue (s : AvatarService) (q : list str)
    : AvatarService :=
  {| avatar_synthesizer := avatar_synthesizer s;
     is_speaking := is_speaking s;
     spoken_text_queue := q;
     synthesizing := synthesizing s;
     rendered := rendered s |}.

Definition set_synthesizing (s : AvatarService) (l : list str)
    : AvatarService :=
  {| avatar_synthesizer := avatar_synthesizer s;
     is_speaking := is_speaking s;
     spoken_text_queue := spoken_text_queue s;
     synthesizing := l;
     rendered := rendered s |}.

(** [_speak_next], from the return of the blocking call on.  The value
    of the nested [_speak_next] call is discarded by the source. *)
Definition _speak_next_resumed (s : AvatarService) (o : synthesis)
    : AvatarService :=
  match o with
  | Result SynthesizingAudioCompleted =>
      match spoken_text_queue s with
      | next_text :: rest =>
          fst (_speak_next (set_spoken_text_queue s rest) next_text)
      | [] => set_is_speaking s false
      end
  | Result Canceled => set_is_speaking s false
  | Result OtherReason => s
  | Exception => set_is_speaking s false
  end.

Definition speak (s : AvatarService) (text : str)
    : AvatarService * option bool :=
  if is_speaking s
  then (set_spoken_text_queue s (spoken_text_queue s ++ [text]),
        Some true)
  else _speak_next s text.

Definition stop_speaking (s : AvatarService) : AvatarService * bool :=
  let s1 := set_spoken_text_queue s [] in
  if avatar_synthesizer s1
  then (set_is_speaking s1 false, true)
  else (set_is_speaking s1 false, true).

(** What happens to the service over time: [speak] is called, or the
    oldest outstanding synthesis call returns.  The latter is possible
    only while a call is outstanding.  The class takes no lock; as in a
    sequential reading of the source, a method runs undisturbed up to its
    blocking synthesis call, and that call is the one place where a further
    [speak] can come in. *)
Inductive event :=
| Speak (text : str)
| Synthesized (o : synthesis).

Definition step (s : AvatarService) (e : event) : option AvatarService :=
  match e with
  | Speak text => Some (fst (speak s text))
  | Synthesized o =>
      match synthesizing s with
      | [] => None
      | _ :: still => Some (_speak_next_resumed (set_synthesizing s still) o)
      end
  end.

Fixpoint exec (s : AvatarService) (evs : list event)
    : option AvatarService :=
  match evs with
  | [] => Some s
  | e :: evs' =>
      match step s e with
      | Some s' => exec s' evs'
      | None => None
      end
  end.

Definition completed : event := Synthesized (Result SynthesizingAudioCompleted).

(** The texts passed to [speak] by a sequence of events, in call order. *)
Definition spoken (evs : list event) : list str :=
  flat_map (fun e => match e with Speak t => [t] | Synthesized _ => [] end)
           evs.

(** The number of returns of synthesis calls among the events. *)
Definition returns (evs : list event) : nat :=
  length (List.filter
            (fun e => match e with Synthesized _ => true | Speak _ => false end)
            evs).





(** *** The SSML document

    The pieces of the template of [_create_ssml], around the voice name,
    the encoded text and the optional break. *)
Definition ssml_open : str :=
  lit "<speak version='1.0' xmlns='http://www.w3.org/2001/10/synthesis'"
  ++ [0x0A]
  ++ lit "                     xmlns:mstts='http://www.w3.org/2001/mstts'"
  ++ [0x0A]
  ++ lit "                     xml:lang='en-US'>"
  ++ [0x0A]
  ++ lit "                  <voice name='".

Definition ssml_before_text : str :=
  lit "'>"
  ++ [0x0A]
  ++ lit "                    <mstts:ttsembedding>"
  ++ [0x0A]
  ++ lit "                      <mstts:leadingsilence-exact value='0'/>"
  ++ [0x0A]
  ++ lit "                      ".

Definition ssml_break (ending_silence_ms : Z) : str :=
  [0x0A]
  ++ lit "                      <break time='"
  ++ str_of_int ending_silence_ms ++ lit "ms' />".

Definition ssml_close : str :=
  [0x0A]
  ++ lit "                    </mstts:ttsembedding>"
  ++ [0x0A]
  ++ lit "                  </voice>"
  ++ [0x0A]
  ++ lit "                </speak>".

Definition _create_ssml (text voice : str) (ending_silence_ms : Z) : str :=
  let encoded_text := html_escape text in
  let ssml := ssml_open ++ voice ++ ssml_before_text ++ encoded_text in
  let ssml :=
    if (ending_silence_ms >? 0)%Z
    then ssml ++ ssml_break ending_silence_ms
    else ssml in
  ssml ++ ssml_close.

Definition disconnect (s : AvatarService) : AvatarService :=
  let s1 := fst (stop_speaking s) in
  if avatar_synthesizer s1
  then {| avatar_synthesizer := false;
          is_speaking := is_speaking s1;
          spoken_text_queue := spoken_text_queue s1;
          synthesizing := synthesizing s1;
          rendered := rendered s1 |}
  else s1.

(** The number of occurrences of a character. *)
Definition occurrences (c : N) (s : str) : nat :=
  length (List.filter (fun d => d =? c) s).

End Avatar.

(** ** openai_service.py *)

Module OpenAI.
Import Py.

(** A chat message, the dictionary [{"role": ..., "content": ...}]. *)
Record message := mkMessage {
  role : str;
  content : str
}.

(** The one entry built by [set_data_sources]; its remaining fields are
    constants. *)
Record data_source := mkDataSource {
  endpoint : str;
  api_key : str;
  index_name : str;
  role_information : str
}.

(** The service object.  [posted] records, oldest first, the ["messages"]
    field of the body of every [requests.post] the service has made. *)
Record OpenAIService := mkOpenAIService {
  messages : list message;
  data_sources : list data_source;
  posted : list (list message)
}.

(** [__init__] *)
Definition init : OpenAIService :=
  {| messages := []; data_sources := []; posted := [] |}.

Definition append_message (svc : OpenAIService) (m : message)
    : OpenAIService :=
  {| messages := messages svc ++ [m];
     data_sources := data_sources svc;
     posted := posted svc |}.

Definition add_system_message (svc : OpenAIService) (content : str)
    : OpenAIService :=
  match data_sources svc with
  | [] => append_message svc (mkMessage (lit "system") content)
  | _ :: _ => svc
  end.

Definition add_user_message (svc : OpenAIService) (content : str)
    : OpenAIService :=
  append_message svc (mkMessage (lit "user") content).

Definition add_assistant_message (svc : OpenAIService) (content : str)
    : OpenAIService :=
  append_message svc (mkMessage (lit "assistant") content).

Definition clear_messages (svc : OpenAIService) : OpenAIService :=
  {| messages := [];
     data_sources := data_sources svc;
     posted := posted svc |}.

Definition set_data_sources (svc : OpenAIService)
    (endpoint api_key index_name role_information : str)
    : OpenAIService :=
  {| messages := messages svc;
     data_sources :=
       [mkDataSource endpoint api_key index_name role_information];
     posted := posted svc |}.

(** [get_messages] on the level of values; the object identity of the
    returned list is treated in [Store] below. *)
Definition get_messages (svc : OpenAIService) : list message :=
  messages svc.

(** What the endpoint does with one non-streaming request, as far as the
    [try] block of [get_chat_response] can tell. *)
Inductive response :=
| Replied (assistant_reply : str)
    (* success status; the reply extracted from the JSON body *)
| RequestException (status_code : option Z)
    (* requests.exceptions.RequestException, with the status of
       e.response when there is a response *)
| OtherException.
    (* any other exception, for instance a KeyError on the body *)

Inductive outcome (A : Type) :=
| Returns (a : A)
| Raises.
Arguments Returns {A} a.
Arguments Raises {A}.

Definition error_msg (status_code : option Z) : str :=
  match status_code with
  | Some 404%Z =>
      lit "Deployment not found. Please verify your Azure OpenAI deployment name in the .env file."
  | Some 401%Z =>
      lit "Authentication failed. Please check your API key in the .env file."
  | Some 429%Z =>
      lit "Rate limit exceeded. Please wait a moment and try again."
  | _ =>
      lit "I apologize, but I'm having trouble connecting to the AI service. Please check your configuration."
  end.

(** The single [requests.post] of a call, sent with the current
    messages. *)
Definition post (svc : OpenAIService) : OpenAIService :=
  {| messages := messages svc;
     data_sources := data_sources svc;
     posted := posted svc ++ [messages svc] |}.

Definition get_chat_response (svc : OpenAIService) (user_query : str)
    (r : response) : OpenAIService * outcome str :=
  let svc1 := post (add_user_message svc user_query) in
  match r with
  | Replied assistant_reply =>
      (add_assistant_message svc1 assistant_reply, Returns assistant_reply)
  | RequestException status_code => (svc1, Returns (error_msg status_code))
  | OtherException => (svc1, Raises)
  end.

(** What the endpoint does with one streaming request: the non-empty
    contents the generator extracts from the lines it receives, and
    whether the stream then ends or an exception is raised (by
    [raise_for_status] before any line, or while reading). *)
Inductive stream :=
| StreamCompleted (contents : list str)
| StreamFailed (contents : list str).

(** [get_chat_response_stream], consumed to its end: the final service
    state, the chunks yielded, and how the iteration ends. *)
Definition get_chat_response_stream (svc : OpenAIService)
    (user_query : str) (s : stream)
    : OpenAIService * list str * outcome unit :=
  let svc1 := post (add_user_message svc user_query) in
  match s with
  | StreamCompleted contents =>
      (add_assistant_message svc1 (concat contents), contents, Returns tt)
  | StreamFailed contents => (svc1, contents, Raises)
  end.

(** *** Sequences of calls *)

(** A conversation: one [get_chat_response] per turn. *)
Definition chat (svc : OpenAIService) (turn : str * response)
    : OpenAIService :=
  fst (get_chat_response svc (fst turn) (snd turn)).

Definition converse (svc : OpenAIService) (turns : list (str * response))
    : OpenAIService :=
  fold_left chat turns svc.


(** The number of messages of a role. *)
Definition role_count (r : str) (ms : list message) : nat :=
  length (List.filter (fun m => bool_decide (role m = r)) ms).

(** Any use of the service that leaves its data sources alone. *)
Inductive call :=
| AddSystemMessage (content : str)
| AddUserMessage (content : str)
| AddAssistantMessage (content : str)
| ClearMessages
| GetChatResponse (user_query : str) (r : response)
| GetChatResponseStream (user_query : str) (s : stream).

Definition do_call (svc : OpenAIService) (c : call) : OpenAIService :=
  match c with
  | AddSystemMessage content => add_system_message svc content
  | AddUserMessage content => add_user_message svc content
  | AddAssistantMessage content => add_assistant_message svc content
  | ClearMessages => clear_messages svc
  | GetChatResponse user_query r => fst (get_chat_response svc user_query r)
  | GetChatResponseStream user_query s =>
      fst (fst (get_chat_response_stream svc user_query s))
  end.

End OpenAI.

(** ** app.py *)

Module App.
Import Py OpenAI.

(** The fields of [Config] that the handlers read. *)
Record Config := mkConfig {
  system_prompt : str;
  enable_search : bool;
  cog_search_endpoint : option str;
  cog_search_key : option str;
  cog_search_index : option str
}.

(** Truth value and content of an [Optional[str]]. *)
Definition given (o : option str) : bool :=
  match o with Some s => truthy s | None => false end.

Definition value (o : option str) : str :=
  match o with Some s => s | None => [] end.

Record chat_entry := mkEntry {
  entry_role : str;
  entry_content : str;
  timestamp : Z
}.

(** [st.session_state].  [last_voice_text] is [None] as long as the
    attribute does not exist. *)
Record session_state := mkSession {
  config : Config;
  openai_service : OpenAIService;
  chat_history : list chat_entry;
  session_active : bool;
  current_response : str;
  message_counter : Z;
  last_voice_text : option str
}.

(** The initialisation block of the script (first run of a session). *)
Definition init_openai_service (cfg : Config) : OpenAIService :=
  let svc := add_system_message OpenAI.init (system_prompt cfg) in
  if enable_search cfg
     && (given (cog_search_endpoint cfg)
         && given (cog_search_key cfg)
         && given (cog_search_index cfg))
  then set_data_sources svc
         (value (cog_search_endpoint cfg))
         (value (cog_search_key cfg))
         (value (cog_search_index cfg))
         (system_prompt cfg)
  else svc.

Definition init_session_state (cfg : Config) : session_state :=
  {| config := cfg;
     openai_service := init_openai_service cfg;
     chat_history := [];
     session_active := false;
     current_response := [];
     message_counter := 0%Z;
     last_voice_text := None |}.

(** What a handler leaves on the page. *)
Inductive page :=
| Untouched     (* the handler did not run *)
| Rerun         (* state updated, st.rerun() *)
| ErrorShown.   (* st.error(...) *)

(** The start and stop buttons. *)
Definition start_session (st : session_state) : session_state * page :=
  if negb (session_active st)
  then ({| config := config st;
           openai_service := openai_service st;
           chat_history := chat_history st;
           session_active := true;
           current_response := current_response st;
           message_counter := message_counter st;
           last_voice_text := last_voice_text st |}, Rerun)
  else (st, Untouched).

Definition stop_session (st : session_state) : session_state * page :=
  if session_active st
  then ({| config := config st;
           openai_service := openai_service st;
           chat_history := chat_history st;
           session_active := false;
           current_response := [];
           message_counter := message_counter st;
           last_voice_text := last_voice_text st |}, Rerun)
  else (st, Untouched).

(** The clear button. *)
Definition clear_chat (st : session_state) : session_state * page :=
  if session_active st
  then ({| config := config st;
           openai_service :=
             add_system_message (clear_messages (openai_service st))
                                (system_prompt (config st));
           chat_history := [];
           session_active := session_active st;
           current_response := [];
           message_counter := message_counter st;
           last_voice_text := last_voice_text st |}, Rerun)
  else (st, Untouched).

(** The part shared by the typed and the voice handler: the body of their
    [try] statement.  [now_user] and [now_assistant] are the two readings
    of the clock. *)
Definition respond (st : session_state) (text : str) (r : response)
    (now_user now_assistant : Z) : session_state * page :=
  match get_chat_response (openai_service st) text r with
  | (svc, Returns reply) =>
      ({| config := config st;
          openai_service := svc;
          chat_history :=
            chat_history st
            ++ [mkEntry (lit "user") text now_user;
                mkEntry (lit "assistant") reply now_assistant];
          session_active := session_active st;
          current_response := reply;
          message_counter := (message_counter st + 1)%Z;
          last_voice_text := last_voice_text st |}, Rerun)
  | (svc, Raises) =>
      ({| config := config st;
          openai_service := svc;
          chat_history := chat_history st;
          session_active := session_active st;
          current_response := current_response st;
          message_counter := message_counter st;
          last_voice_text := last_voice_text st |}, ErrorShown)
  end.

(** The text box and its send button:
    [if send_clicked and user_input and user_input.strip()]. *)
Definition send_message (st : session_state) (send_clicked : bool)
    (user_input : str) (r : response) (now_user now_assistant : Z)
    : session_state * page :=
  if session_active st
     && (send_clicked && truthy user_input && truthy (strip user_input))
  then respond st user_input r now_user now_assistant
  else (st, Untouched).

Definition set_last_voice_text (st : session_state) (t : str)
    : session_state :=
  {| config := config st;
     openai_service := openai_service st;
     chat_history := chat_history st;
     session_active := session_active st;
     current_response := current_response st;
     message_counter := message_counter st;
     last_voice_text := Some t |}.

(** The voice block at the end of the script.  [voice_data] is
    [Some text] when the component value is a dictionary with a ['text']
    entry, and [None] otherwise. *)
Definition process_voice_input (st : session_state)
    (voice_data : option str) (r : response) (now_user now_assistant : Z)
    : session_state * page :=
  match voice_data with
  | Some voice_text =>
      if bool_decide (last_voice_text st = Some voice_text)
      then (st, Untouched)
      else respond (set_last_voice_text st voice_text) voice_text r
                   now_user now_assistant
  | None => (st, Untouched)
  end.

(** What can happen between two submissions: a button is pressed, the
    text box is sent, or the voice component delivers a text. *)
Inductive action :=
| PressStart
| PressStop
| PressClear
| PressSend (user_input : str) (r : response) (now_user now_assistant : Z)
| VoiceText (voice_text : str) (r : response) (now_user now_assistant : Z).

Definition handle (st : session_state) (a : action) : session_state :=
  match a with
  | PressStart => fst (start_session st)
  | PressStop => fst (stop_session st)
  | PressClear => fst (clear_chat st)
  | PressSend user_input r t1 t2 =>
      fst (send_message st true user_input r t1 t2)
  | VoiceText voice_text r t1 t2 =>
      fst (process_voice_input st (Some voice_text) r t1 t2)
  end.

(** The voice texts among the actions are all [t]. *)
Definition no_other_voice_text (t : str) (a : action) : Prop :=
  match a with
  | VoiceText voice_text _ _ _ => voice_text = t
  | _ => True
  end.





(** *** The history expander

    [reversed(st.session_state.chat_history[-10:])]: the entries shown,
    top to bottom. *)
Definition shown_history (st : session_state) : list chat_entry :=
  if session_active st then rev (last_items 10 (chat_history st)) else [].

(** A history made of turns: a user entry followed by an assistant
    entry. *)
Fixpoint paired (h : list chat_entry) : Prop :=
  match h with
  | [] => True
  | u :: a :: h' =>
      entry_role u = lit "user" /\ entry_role a = lit "assistant"
      /\ paired h'
  | [_] => False
  end.

End App.

(** ** config.py *)

Module Settings.
Import Py.

(** The settings that [validate] reads. *)
Record Config := mkConfig {
  speech_key : str;
  speech_region : str;
  openai_endpoint : str;
  openai_key : str;
  openai_deployment : str
}.

Inductive validation :=
| Valid                       (* return True *)
| ValueError (message : str). (* raise ValueError(message) *)

Definition validate (cfg : Config) : validation :=
  if negb (truthy (speech_key cfg))
  then ValueError (lit "AZURE_SPEECH_KEY is required in .env file")
  else if negb (truthy (speech_region cfg))
  then ValueError (lit "AZURE_SPEECH_REGION is required in .env file")
  else if negb (truthy (openai_endpoint cfg))
  then ValueError (lit "AZURE_OPENAI_ENDPOINT is required in .env file")
  else if negb (truthy (openai_key cfg))
  then ValueError (lit "AZURE_OPENAI_KEY is required in .env file")
  else if negb (truthy (openai_deployment cfg))
  then ValueError (lit "AZURE_OPENAI_DEPLOYMENT is required in .env file")
  else Valid.

End Settings.

(** ** The message list as an object

  [get_messages] returns [self.messages.copy()].  To say what a caller
  can and cannot do to the service through the returned list, lists and
  dictionaries are objects in a store, and a list holds references to
  its elements. *)

Module Store.
Import Py.

Abbreviation ref := positive.

Record store := mkStore {
  lists : gmap ref (list ref);
  dicts : gmap ref OpenAI.message
}.

(** [xs.copy()]: a new list object with the same element references. *)
Definition list_copy (h : store) (l : ref) : option (store * ref) :=
  match lists h !! l with
  | Some xs =>
      let l' := fresh (dom (lists h)) in
      Some ({| lists := <[l' := xs]> (lists h); dicts := dicts h |}, l')
  | None => None
  end.

(** [get_messages] of a service whose [messages] attribute refers to the
    list object [self_messages]. *)
Definition get_messages (h : store) (self_messages : ref)
    : option (store * ref) :=
  list_copy h self_messages.

(** An arbitrary in-place change of the list object [l]: append, insert,
    remove, pop, clear, item or slice assignment, sort, reverse, ... *)
Definition mutate_list (h : store) (l : ref)
    (f : list ref -> list ref) : store :=
  {| lists := alter f l (lists h); dicts := dicts h |}.

(** An in-place change of the dictionary object [d]. *)
Definition mutate_dict (h : store) (d : ref)
    (f : OpenAI.message -> OpenAI.message) : store :=
  {| lists := lists h; dicts := alter f d (dicts h) |}.

(** The messages a list object denotes. *)
Definition contents (h : store) (l : ref) : option (list OpenAI.message) :=
  match lists h !! l with
  | Some xs => mapM (fun d => dicts h !! d) xs
  | None => None
  end.

End Store.

(* ===================================================================== *)
(** * Part II: properties *)
(* ===================================================================== *)

Section MessageBufferProps.
Import Py Utils.

Example feed_example :
  feed (init None) [lit "Hel"; lit "lo world. How "; lit "are you?"]
  = ({| buffer := [];
        complete_sentences := [lit "Hello world. How are you?"];
        punctuations := default_punctuations |},
     [lit "Hello world. How are you?"]).
Proof. vm_compute. reflexivity. Qed.


(** *** Membership test *)

Lemma contains_spec (xs : list str) (x : str) :
  contains xs x = true <-> x ∈ xs.
Proof.
  unfold contains. rewrite existsb_exists. split.
  - intros (y & Hy & Heq). apply bool_decide_eq_true in Heq. subst y.
    by apply list_elem_of_In.
  - intros Hx. exists x. split; [by apply list_elem_of_In |].
    by apply bool_decide_eq_true.
Qed.

Lemma ends_with_punctuation_spec (ps : list str) (buf : str) :
  ends_with_punctuation ps buf = true
  <-> exists pre c, buf = pre ++ [c] /\ [c] ∈ ps.
Proof.
  unfold ends_with_punctuation. split.
  - destruct (last buf) as [c|] eqn:Hl; [| discriminate].
    intros Hc. apply last_Some in Hl as [pre ->].
    exists pre, c. split; [done |]. by apply contains_spec.
  - intros (pre & c & -> & Hc). rewrite last_snoc. by apply contains_spec.
Qed.

(** *** Conservation of text *)

Lemma add_chunk_conserves (mb : MessageBuffer) (chunk : str) :
  concat (snd (add_chunk mb chunk)) ++ buffer (fst (add_chunk mb chunk))
  = buffer mb ++ chunk.
Proof.
  unfold add_chunk.
  destruct (ends_with_punctuation _ _); simpl; by rewrite ?app_nil_r.
Qed.

Lemma flush_conserves (mb : MessageBuffer) :
  concat (returned (snd (flush mb))) ++ buffer (fst (flush mb))
  = buffer mb.
Proof.
  unfold flush. destruct (buffer mb) eqn:Hb; simpl; [done |].
  by rewrite !app_nil_r.
Qed.

Lemma flush_empties (mb : MessageBuffer) : buffer (fst (flush mb)) = [].
Proof. unfold flush. by destruct (buffer mb) eqn:Hb. Qed.

Lemma do_call_conserves (mb : MessageBuffer) (c : call) :
  concat (snd (do_call mb c)) ++ buffer (fst (do_call mb c))
  = buffer mb ++ concat (fragments [c]).
Proof.
  destruct c as [chunk|]; simpl.
  - rewrite app_nil_r. apply add_chunk_conserves.
  - rewrite app_nil_r. pose proof (flush_conserves mb) as H.
    by destruct (flush mb).
Qed.

Lemma fragments_app (cs1 cs2 : list call) :
  fragments (cs1 ++ cs2) = fragments cs1 ++ fragments cs2.
Proof. unfold fragments. by rewrite flat_map_app. Qed.

(** The text emitted so far, followed by the text still buffered, is the
    text received so far. *)
Lemma run_conserves (cs : list call) (mb : MessageBuffer) :
  concat (snd (run mb cs)) ++ buffer (fst (run mb cs))
  = buffer mb ++ concat (fragments cs).
Proof.
  revert mb. induction cs as [|c cs IH]; intros mb.
  - simpl. by rewrite app_nil_r.
  - change (c :: cs) with ([c] ++ cs) at 3. rewrite fragments_app.
    pose proof (do_call_conserves mb c) as Hc. simpl run.
    destruct (do_call mb c) as [mb1 out1].
    specialize (IH mb1). destruct (run mb1 cs) as [mb2 out2].
    cbn [fst snd] in *.
    rewrite !concat_app, <- app_assoc, IH, !app_assoc. by rewrite Hc.
Qed.

Lemma run_app (cs1 cs2 : list call) (mb : MessageBuffer) :
  run mb (cs1 ++ cs2)
  = (fst (run (fst (run mb cs1)) cs2),
     snd (run mb cs1) ++ snd (run (fst (run mb cs1)) cs2)).
Proof.
  revert mb. induction cs1 as [|c cs1 IH]; intros mb; simpl.
  - by destruct (run mb cs2).
  - destruct (do_call mb c) as [mb1 out1]. rewrite IH.
    destruct (run mb1 cs1) as [mb2 out2]. simpl.
    by rewrite app_assoc.
Qed.

(** Everything returned is also recorded in [complete_sentences]. *)
Lemma do_call_records (mb : MessageBuffer) (c : call) :
  complete_sentences (fst (do_call mb c))
  = complete_sentences mb ++ snd (do_call mb c).
Proof.
  destruct c as [chunk|]; simpl.
  - unfold add_chunk. destruct (ends_with_punctuation _ _); simpl;
      by rewrite ?app_nil_r.
  - unfold flush. destruct (truthy (buffer mb)); simpl;
      by rewrite ?app_nil_r.
Qed.

Lemma run_records (cs : list call) (mb : MessageBuffer) :
  complete_sentences (fst (run mb cs))
  = complete_sentences mb ++ snd (run mb cs).
Proof.
  revert mb. induction cs as [|c cs IH]; intros mb; simpl.
  - by rewrite app_nil_r.
  - pose proof (do_call_records mb c) as Hc.
    destruct (do_call mb c) as [mb1 out1].
    specialize (IH mb1). destruct (run mb1 cs) as [mb2 out2].
    simpl in *. by rewrite IH, Hc, app_assoc.
Qed.

Lemma fragments_feed (chunks : list str) :
  fragments (List.map AddChunk chunks) = chunks.
Proof. induction chunks as [|c cs IH]; simpl; by rewrite ?IH. Qed.

Lemma run_then_flush_conserves (mb0 : MessageBuffer) (cs : list call) :
  let r := run (clear mb0) (cs ++ [Flush]) in
  concat (snd r) = concat (fragments cs)
  /\ get_all (fst r) = concat (fragments cs)
  /\ buffer (fst r) = [].
Proof.
  intros r.
  assert (Hbuf : buffer (fst r) = []).
  { subst r. rewrite run_app. simpl.
    pose proof (flush_empties (fst (run (clear mb0) cs))) as H.
    by destruct (flush _). }
  assert (Hout : concat (snd r) = concat (fragments cs)).
  { pose proof (run_conserves (cs ++ [Flush]) (clear mb0)) as H.
    fold r in H. rewrite Hbuf, app_nil_r in H. rewrite H.
    rewrite fragments_app. simpl. by rewrite app_nil_r. }
  split; [exact Hout |]. split; [| exact Hbuf].
  unfold get_all. subst r. rewrite run_records. exact Hout.
Qed.

(** C1.  Whatever fragments are handed to a message buffer after it was
    cleared (or created), and however [flush] calls are interleaved with
    the [add_chunk] calls, once a final [flush] has been made the strings
    returned by all calls, concatenated in the order of their emission,
    are exactly the concatenation of the fragments; the same text is what
    [get_all] reports, and nothing is left in the buffer.  In particular
    this holds for one [add_chunk] per fragment followed by [flush]. *)
Theorem message_buffer_conserves_text
    (mb0 : MessageBuffer) (cs : list call) (chunks : list str) :
  (let r := run (clear mb0) (cs ++ [Flush]) in
   concat (snd r) = concat (fragments cs)
   /\ get_all (fst r) = concat (fragments cs)
   /\ buffer (fst r) = [])
  /\ (let '(mb1, sentences) := feed (clear mb0) chunks in
      let '(mb2, rest) := flush mb1 in
      concat (sentences ++ returned rest) = concat chunks
      /\ get_all mb2 = concat chunks).
Proof.
  split; [apply run_then_flush_conserves |].
  pose proof (run_then_flush_conserves mb0 (List.map AddChunk chunks))
    as (H & Hall & _).
  rewrite run_app, fragments_feed in H, Hall. simpl in H, Hall.
  unfold feed.
  destruct (run (clear mb0) (List.map AddChunk chunks)) as [mb1 sentences].
  simpl in H, Hall. destruct (flush mb1) as [mb2 rest]. simpl in H, Hall.
  rewrite app_nil_r in H. by split.
Qed.

Lemma init_is_clear (ps : option (list str)) : clear (init ps) = init ps.
Proof. reflexivity. Qed.

End MessageBufferProps.

Section AddChunkProps.
Import Py Utils.

(** The fragments ["Hel"], ["lo world. How "], ["are you?"] do not yield
    the two sentences ["Hello world."] and [" How are you?"]: the full
    stop inside the second fragment is not at the end of the buffer, and
    the three fragments come out as one unit. *)
Lemma add_chunk_does_not_split_inside :
  snd (feed (init None) [lit "Hel"; lit "lo world. How "; lit "are you?"])
  <> [lit "Hello world."; lit " How are you?"].
Proof. vm_compute. discriminate. Qed.

Lemma add_chunk_at_most_one (mb : MessageBuffer) (chunk : str) :
  snd (add_chunk mb chunk) = []
  \/ snd (add_chunk mb chunk) = [buffer mb ++ chunk].
Proof.
  unfold add_chunk. destruct (ends_with_punctuation _ _); simpl; auto.
Qed.

Lemma add_chunk_emits_iff (mb : MessageBuffer) (chunk : str) :
  snd (add_chunk mb chunk) = [buffer mb ++ chunk]
  <-> exists pre c, buffer mb ++ chunk = pre ++ [c]
                    /\ [c] ∈ punctuations mb.
Proof.
  rewrite <- ends_with_punctuation_spec. unfold add_chunk.
  destruct (ends_with_punctuation _ _); simpl; split; try done.
Qed.

(** C2, as the code has it.  An [add_chunk] call returns at most one
    unit.  It returns one exactly when the buffer, with the fragment
    appended, ends in one of the configured sentence-terminal characters,
    and the unit is then the whole buffer, which is emptied; terminal
    characters before the end of the buffer do not split it.  Otherwise
    nothing is returned and the fragment stays buffered.  The fragments
    ["Hel"], ["lo world. How "], ["are you?"] yield the single unit
    ["Hello world. How are you?"], and [flush] then returns nothing. *)
Theorem add_chunk_emits_whole_buffer_at_terminal_end
    (mb : MessageBuffer) (chunk : str) :
  let buf := buffer mb ++ chunk in
  let r := add_chunk mb chunk in
  (snd r = [] \/ snd r = [buf])
  /\ (snd r = [buf]
      <-> exists pre c, buf = pre ++ [c] /\ [c] ∈ punctuations mb)
  /\ (snd r = [buf] -> buffer (fst r) = [])
  /\ (snd r = [] -> buffer (fst r) = buf)
  /\ snd (feed (init None)
                [lit "Hel"; lit "lo world. How "; lit "are you?"])
     = [lit "Hello world. How are you?"]
  /\ snd (flush (fst (feed (init None)
                [lit "Hel"; lit "lo world. How "; lit "are you?"])))
     = None.
Proof.
  intros buf r. subst buf r.
  split; [apply add_chunk_at_most_one |].
  split; [apply add_chunk_emits_iff |].
  repeat split.
  - unfold add_chunk. destruct (ends_with_punctuation _ _); simpl; done.
  - unfold add_chunk. destruct (ends_with_punctuation _ _); simpl; done.
Qed.

(** The stand-alone [split_into_sentences] does split at every terminal
    character, but it also strips white space and so does not preserve the
    text; the buffer does not use it. *)
Example split_into_sentences_example :
  split_into_sentences (lit "Hello world. How are you?") None
  = [lit "Hello world."; lit "How are you?"].
Proof. vm_compute. reflexivity. Qed.

End AddChunkProps.

Section SanitizeProps.
Import Py Utils.

Lemma drop_leading_suffix (ws : N -> bool) (s : str) :
  exists pre, s = pre ++ drop_leading ws s.
Proof.
  induction s as [|c s [pre IH]]; simpl.
  - by exists [].
  - destruct (ws c).
    + exists (c :: pre). simpl. by rewrite <- IH.
    + by exists [].
Qed.

Lemma drop_leading_Forall (P : N -> Prop) (ws : N -> bool) (s : str) :
  Forall P s -> Forall P (drop_leading ws s).
Proof.
  intros H. destruct (drop_leading_suffix ws s) as [pre Hs].
  rewrite Hs in H. by apply Forall_app in H as [_ H].
Qed.

Lemma strip_by_Forall (P : N -> Prop) (ws : N -> bool) (s : str) :
  Forall P s -> Forall P (strip_by ws s).
Proof.
  intros H. unfold strip_by.
  apply List.Forall_rev, drop_leading_Forall, List.Forall_rev.
  by apply drop_leading_Forall.
Qed.

Lemma slice_to_Forall (P : N -> Prop) (s : str) (n : Z) :
  Forall P s -> Forall P (slice_to s n).
Proof.
  intros H. unfold slice_to. destruct (n <? 0)%Z; by apply Forall_take.
Qed.

Lemma slice_to_length (s : str) (n : Z) :
  (0 <= n)%Z -> (Z.of_nat (length (slice_to s n)) <= n)%Z.
Proof.
  intros Hn. unfold slice_to.
  destruct (n <? 0)%Z eqn:Hneg; [lia |].
  rewrite length_take. lia.
Qed.

Lemma filter_removed_control (text : str) :
  Forall (fun c => removed_control c = false)
         (List.filter (fun c => negb (removed_control c)) text).
Proof.
  apply List.Forall_forall. intros c Hc.
  apply List.filter_In in Hc as [_ Hc]. by apply negb_true_iff.
Qed.

(** A negative [max_length] is not a bound on the length of the result:
    [text[:max_length]] then only drops characters from the end. *)
Lemma sanitize_input_negative_max_length :
  sanitize_input (lit "abc") (-1) = lit "ab"
  /\ ~ (Z.of_nat (length (sanitize_input (lit "abc") (-1))) <= -1)%Z.
Proof. split; [vm_compute; reflexivity | vm_compute; intros H; by apply H]. Qed.

(** C10, for the lengths that can be met.  For every text and every
    [max_length] that is not negative, [sanitize_input] returns a string
    of at most [max_length] characters in which no character of the
    removed ranges U+0000-U+0008, U+000B-U+000C, U+000E-U+001F and
    U+007F-U+009F occurs (tab U+0009 and newline U+000A are outside these
    ranges and are kept inside the text); the empty text gives the empty
    string. *)
Theorem sanitize_input_bounded_and_clean (text : str) (max_length : Z) :
  (0 <= max_length)%Z ->
  (Z.of_nat (length (sanitize_input text max_length)) <= max_length)%Z
  /\ Forall (fun c => removed_control c = false)
            (sanitize_input text max_length)
  /\ sanitize_input [] max_length = [].
Proof.
  intros Hmax. unfold sanitize_input.
  destruct text as [|c text]; simpl negb; cbv iota.
  - simpl. split; [lia |]. split; [constructor | reflexivity].
  - set (text2 := strip _).
    assert (Hclean : Forall (fun c => removed_control c = false) text2).
    { apply strip_by_Forall, filter_removed_control. }
    destruct (Z.of_nat (length text2) >? max_length)%Z eqn:Hlen.
    + split; [by apply slice_to_length |].
      split; [by apply slice_to_Forall | reflexivity].
    + split; [lia |]. split; [exact Hclean | reflexivity].
Qed.

Lemma sanitize_input_bounded_and_clean_witness :
  (0 <= 4)%Z
  /\ sanitize_input (lit " ab cdef ") 4 = lit "ab c"
  /\ (Z.of_nat (length (sanitize_input (lit " ab cdef ") 4)) <= 4)%Z.
Proof.
  split; [lia |]. split; [vm_compute; reflexivity |].
  apply (sanitize_input_bounded_and_clean (lit " ab cdef ") 4). lia.
Defined.

(** Carriage return is outside the removed ranges as well and survives
    inside the text. *)
Example sanitize_input_keeps_inner_cr :
  sanitize_input [0x61; 0x00; 0x0D; 0x09; 0x0A; 0x1B; 0x62; 0x20] 5000
  = [0x61; 0x0D; 0x09; 0x0A; 0x62].
Proof. vm_compute. reflexivity. Qed.

End SanitizeProps.

Section SpeechQueueProps.
Import Py Avatar.

(** *** At most one outstanding synthesis call *)






(** *** Rendering in the order of the [speak] calls *)





Lemma returns_cons (e : event) (evs : list event) :
  returns (e :: evs) = (returns [e] + returns evs)%nat.
Proof. unfold returns. simpl. by destruct e. Qed.



(** *** Draining the queue *)








(** A blank unit that arrives while another one is spoken is queued like
    any other; when its turn comes nothing is rendered for it, the flag
    stays set, and the units behind it keep waiting. *)
Example blank_unit_in_the_queue :
  exec init [Speak (lit "A."); Speak (lit " "); Speak (lit "C.");
             completed]
  = Some {| avatar_synthesizer := false; is_speaking := true;
            spoken_text_queue := [lit "C."]; synthesizing := [];
            rendered := [lit "A."] |}.
Proof. vm_compute. reflexivity. Qed.

(** A cancelled synthesis leaves the waiting units in the queue, and the
    next unit given to [speak] overtakes them. *)
Example canceled_synthesis_keeps_the_queue :
  exec init [Speak (lit "A."); Speak (lit "B."); Synthesized (Result Canceled);
             Speak (lit "C."); completed; completed]
  = Some {| avatar_synthesizer := false; is_speaking := false;
            spoken_text_queue := []; synthesizing := [];
            rendered := [lit "A."; lit "C."; lit "B."] |}.
Proof. vm_compute. reflexivity. Qed.


End SpeechQueueProps.

Section WhiteSpaceProps.
Import Py.

Lemma drop_leading_nil_iff (ws : N -> bool) (s : str) :
  drop_leading ws s = [] <-> Forall (fun c => ws c = true) s.
Proof.
  induction s as [|c s IH]; simpl.
  - split; [constructor | done].
  - destruct (ws c) eqn:Hc.
    + rewrite IH. split; [by constructor |].
      intros H. by apply Forall_cons in H as [_ H].
    + split; [discriminate |].
      intros H. apply Forall_cons in H as [H _]. congruence.
Qed.

Lemma drop_leading_idemp_nil (ws : N -> bool) (s : str) :
  Forall (fun c => ws c = true) (drop_leading ws s) ->
  drop_leading ws s = [].
Proof.
  induction s as [|c s IH]; simpl; [done |].
  destruct (ws c) eqn:Hc; [exact IH |].
  intros H. apply Forall_cons in H as [H _]. congruence.
Qed.

(** A string strips to the empty string exactly when it is empty or
    consists of white space only. *)
Lemma strip_by_nil_iff (ws : N -> bool) (s : str) :
  strip_by ws s = [] <-> Forall (fun c => ws c = true) s.
Proof.
  unfold strip_by. split.
  - intros H. apply (f_equal (@rev N)) in H. rewrite rev_involutive in H.
    simpl in H. apply drop_leading_nil_iff in H.
    apply List.Forall_rev in H. rewrite rev_involutive in H.
    apply drop_leading_idemp_nil in H. by apply drop_leading_nil_iff.
  - intros H. apply drop_leading_nil_iff in H. by rewrite H.
Qed.

Lemma truthy_false_iff (s : str) : truthy s = false <-> s = [].
Proof. by destruct s. Qed.

End WhiteSpaceProps.

Section SystemMessageProps.
Import Py OpenAI App.

(** [add_system_message] appends the system message when the service has
    no data source and does nothing when it has one. *)
Lemma add_system_message_spec (svc : OpenAIService) (content : str) :
  (data_sources svc = [] ->
     messages (add_system_message svc content)
     = messages svc ++ [mkMessage (lit "system") content])
  /\ (data_sources svc <> [] -> add_system_message svc content = svc).
Proof.
  unfold add_system_message.
  destruct (data_sources svc); split; intros H; done.
Qed.

(** At the start of a session the system message is added before the
    data source is set, so it is added in every configuration. *)
Lemma init_openai_service_messages (cfg : Config) :
  messages (init_openai_service cfg)
  = [mkMessage (lit "system") (system_prompt cfg)].
Proof. unfold init_openai_service. by destruct (_ && _). Qed.

(** C6 at a configuration with search enabled.  The service of a fresh
    session has its data source configured and nevertheless holds the
    system message; clearing the chat of that same session leaves the
    message list empty. *)
Theorem session_start_with_search_keeps_system_message :
  let cfg :=
    {| system_prompt := lit "You are an AI assistant.";
       enable_search := true;
       cog_search_endpoint := Some (lit "https://s.search.windows.net");
       cog_search_key := Some (lit "key");
       cog_search_index := Some (lit "docs") |} in
  let st := init_session_state cfg in
  data_sources (openai_service st)
  = [mkDataSource (lit "https://s.search.windows.net") (lit "key")
                  (lit "docs") (lit "You are an AI assistant.")]
  /\ messages (openai_service st)
     = [mkMessage (lit "system") (lit "You are an AI assistant.")]
  /\ messages (openai_service
                 (fst (clear_chat (fst (start_session st))))) = [].
Proof. vm_compute. repeat split. Qed.

End SystemMessageProps.

Section TurnProps.
Import Py OpenAI App.

Lemma respond_last_voice_text (st : session_state) (text : str)
    (r : response) (t1 t2 : Z) :
  last_voice_text (fst (respond st text r t1 t2)) = last_voice_text st.
Proof. unfold respond. by destruct r. Qed.


Lemma respond_posted (st : session_state) (text : str)
    (r : response) (t1 t2 : Z) :
  posted (openai_service (fst (respond st text r t1 t2)))
  = posted (openai_service st)
    ++ [messages (openai_service st) ++ [mkMessage (lit "user") text]].
Proof. unfold respond. by destruct r. Qed.

Lemma process_voice_input_new (st : session_state) (text : str)
    (r : response) (t1 t2 : Z) :
  last_voice_text st <> Some text ->
  process_voice_input st (Some text) r t1 t2
  = respond (set_last_voice_text st text) text r t1 t2.
Proof.
  intros H. unfold process_voice_input.
  by rewrite bool_decide_eq_false_2.
Qed.

Lemma process_voice_input_repeated (st : session_state) (text : str)
    (r : response) (t1 t2 : Z) :
  last_voice_text st = Some text ->
  process_voice_input st (Some text) r t1 t2 = (st, Untouched).
Proof.
  intros H. unfold process_voice_input.
  by rewrite bool_decide_eq_true_2.
Qed.

Lemma process_voice_input_remembers (st : session_state) (text : str)
    (r : response) (t1 t2 : Z) :
  last_voice_text (fst (process_voice_input st (Some text) r t1 t2))
  = Some text.
Proof.
  destruct (decide (last_voice_text st = Some text)) as [H|H].
  - by rewrite process_voice_input_repeated.
  - rewrite process_voice_input_new by done.
    by rewrite respond_last_voice_text.
Qed.

Lemma send_message_last_voice_text (st : session_state) (b : bool)
    (text : str) (r : response) (t1 t2 : Z) :
  last_voice_text (fst (send_message st b text r t1 t2))
  = last_voice_text st.
Proof.
  unfold send_message. destruct (_ && _); [| done].
  apply respond_last_voice_text.
Qed.

(** *** C4: repeated voice text *)

(** A voice text is rejected the second time although the turn of the
    first submission has completed, and also when a typed turn has
    completed in between. *)
Lemma repeated_voice_text_rejected_after_completion :
  let st0 := fst (start_session (init_session_state
               {| system_prompt := lit "You are an AI assistant.";
                  enable_search := false;
                  cog_search_endpoint := None;
                  cog_search_key := None;
                  cog_search_index := None |})) in
  let st1 := fst (process_voice_input st0 (Some (lit "Hello"))
                    (Replied (lit "Hi!")) 1 2) in
  let st2 := fst (send_message st1 true (lit "typed")
                    (Replied (lit "ok")) 3 4) in
  List.map content (messages (openai_service st1))
  = [lit "You are an AI assistant."; lit "Hello"; lit "Hi!"]
  /\ process_voice_input st1 (Some (lit "Hello")) (Replied (lit "Hi!")) 3 4
     = (st1, Untouched)
  /\ process_voice_input st2 (Some (lit "Hello")) (Replied (lit "Hi!")) 5 6
     = (st2, Untouched).
Proof. vm_compute. repeat split. Qed.

Lemma handle_keeps_last_voice_text (st : session_state) (t : str)
    (a : action) :
  no_other_voice_text t a -> last_voice_text st = Some t ->
  last_voice_text (handle st a) = Some t.
Proof.
  intros Ha Hst. destruct a as [| | |text r t1 t2|v r t1 t2]; simpl in *.
  - unfold start_session. by destruct (negb _).
  - unfold stop_session. by destruct (session_active st).
  - unfold clear_chat. by destruct (session_active st).
  - by rewrite send_message_last_voice_text.
  - subst v. apply process_voice_input_remembers.
Qed.

Lemma handle_all_keeps_last_voice_text (actions : list action)
    (st : session_state) (t : str) :
  Forall (no_other_voice_text t) actions -> last_voice_text st = Some t ->
  last_voice_text (fold_left handle actions st) = Some t.
Proof.
  revert st. induction actions as [|a actions IH]; intros st Hall Hst.
  - exact Hst.
  - apply Forall_cons in Hall as [Ha Hall]. simpl.
    apply IH; [exact Hall |]. by apply handle_keeps_last_voice_text.
Qed.

(** C4, as the code has it.  Once a voice text [t] has been submitted, a
    further voice submission of [t] is rejected (the state does not
    change), whatever became of the first turn: the guard compares with
    the last accepted voice text only, and neither the completion of a
    turn, nor a typed turn, nor any button resets it.  The text [t] is
    accepted again after a different voice text [u] has been accepted in
    between. *)
Theorem voice_text_rejected_until_other_voice_text
    (st : session_state) (t u : str) (r r' r'' : response)
    (t1 t2 t3 t4 t5 t6 : Z) :
  u <> t ->
  let st1 := fst (process_voice_input st (Some t) r t1 t2) in
  let st2 := fst (process_voice_input st1 (Some u) r' t3 t4) in
  process_voice_input st1 (Some t) r' t3 t4 = (st1, Untouched)
  /\ (forall actions,
        Forall (no_other_voice_text t) actions ->
        let st1' := fold_left handle actions st1 in
        process_voice_input st1' (Some t) r'' t5 t6 = (st1', Untouched))
  /\ process_voice_input st2 (Some t) r'' t5 t6
     = respond (set_last_voice_text st2 t) t r'' t5 t6
  /\ posted (openai_service
               (fst (process_voice_input st2 (Some t) r'' t5 t6)))
     = posted (openai_service st2)
       ++ [messages (openai_service st2) ++ [mkMessage (lit "user") t]].
Proof.
  intros Hne st1 st2.
  assert (H1 : last_voice_text st1 = Some t)
    by apply process_voice_input_remembers.
  assert (H2 : last_voice_text st2 = Some u)
    by apply process_voice_input_remembers.
  assert (H3 : last_voice_text st2 <> Some t) by congruence.
  split; [by apply process_voice_input_repeated |].
  split.
  { intros actions Hall st1'. apply process_voice_input_repeated.
    subst st1'. by apply handle_all_keeps_last_voice_text. }
  split; [by apply process_voice_input_new |].
  rewrite process_voice_input_new by done.
  by rewrite respond_posted.
Qed.

Lemma voice_text_rejected_until_other_voice_text_witness :
  let st := init_session_state
              {| system_prompt := lit "You are an AI assistant.";
                 enable_search := false;
                 cog_search_endpoint := None;
                 cog_search_key := None;
                 cog_search_index := None |} in
  let st1 := fst (process_voice_input st (Some (lit "Hello"))
                    (Replied (lit "Hi!")) 1 2) in
  lit "Bye" <> lit "Hello"
  /\ process_voice_input st1 (Some (lit "Hello")) (Replied (lit "Hi!")) 3 4
     = (st1, Untouched).
Proof.
  intros st st1.
  assert (Hne : lit "Bye" <> lit "Hello") by (vm_compute; discriminate).
  split; [exact Hne |].
  apply (voice_text_rejected_until_other_voice_text
           st (lit "Hello") (lit "Bye") (Replied (lit "Hi!"))
           (Replied (lit "Hi!")) (Replied (lit "Hi!")) 1 2 3 4 5 6 Hne).
Defined.

End TurnProps.

Section FailureProps.
Import Py OpenAI App.

(** After a failed request the message list of the service holds the user
    message of the turn and no assistant message: the error text is not
    put there, and in that list the turn stays half applied.  The
    streaming variant of the request does raise. *)
Lemma failed_request_leaves_user_message_alone :
  let r := get_chat_response OpenAI.init (lit "Hi")
             (RequestException (Some 404%Z)) in
  messages (fst r) = [mkMessage (lit "user") (lit "Hi")]
  /\ messages (fst r)
     <> [mkMessage (lit "user") (lit "Hi");
         mkMessage (lit "assistant") (error_msg (Some 404%Z))]
  /\ get_chat_response_stream OpenAI.init (lit "Hi") (StreamFailed [])
     = ({| messages := [mkMessage (lit "user") (lit "Hi")];
           data_sources := [];
           posted := [[mkMessage (lit "user") (lit "Hi")]] |},
        [], Raises).
Proof. vm_compute. repeat split. discriminate. Qed.

(** C5, as the code has it.  When the request of [get_chat_response]
    fails with a [RequestException] (no response, or a response with an
    error status), the call returns the error message that belongs to the
    status and does not raise; exactly one request has been posted; and
    the typed and the voice handler append the user text followed by that
    error message, as the assistant entry of the turn, to the chat
    history, and make it the response to speak.  The message list of the
    service receives the user message only. *)
Theorem failed_request_yields_error_message_in_chat_history
    (st : session_state) (text : str) (status_code : option Z)
    (now_user now_assistant : Z) :
  session_active st = true -> truthy (strip text) = true ->
  last_voice_text st <> Some text ->
  let svc := openai_service st in
  let svc' :=
    {| messages := messages svc ++ [mkMessage (lit "user") text];
       data_sources := data_sources svc;
       posted := posted svc
                 ++ [messages svc ++ [mkMessage (lit "user") text]] |} in
  let history' :=
    chat_history st
    ++ [mkEntry (lit "user") text now_user;
        mkEntry (lit "assistant") (error_msg status_code) now_assistant] in
  get_chat_response svc text (RequestException status_code)
  = (svc', Returns (error_msg status_code))
  /\ send_message st true text (RequestException status_code)
       now_user now_assistant
     = ({| config := config st;
           openai_service := svc';
           chat_history := history';
           session_active := true;
           current_response := error_msg status_code;
           message_counter := (message_counter st + 1)%Z;
           last_voice_text := last_voice_text st |}, Rerun)
  /\ process_voice_input st (Some text) (RequestException status_code)
       now_user now_assistant
     = ({| config := config st;
           openai_service := svc';
           chat_history := history';
           session_active := true;
           current_response := error_msg status_code;
           message_counter := (message_counter st + 1)%Z;
           last_voice_text := Some text |}, Rerun).
Proof.
  intros Hact Htext Hvoice svc svc' history'.
  split; [reflexivity |]. split.
  - unfold send_message. rewrite Hact.
    destruct text as [|c text]; [discriminate |].
    rewrite Htext. simpl. unfold respond. simpl. by rewrite Hact.
  - rewrite process_voice_input_new by done.
    unfold respond. simpl. by rewrite Hact.
Qed.

Lemma failed_request_yields_error_message_in_chat_history_witness :
  let st := fst (start_session (init_session_state
              {| system_prompt := lit "You are an AI assistant.";
                 enable_search := false;
                 cog_search_endpoint := None;
                 cog_search_key := None;
                 cog_search_index := None |})) in
  snd (get_chat_response (openai_service st) (lit "Hi")
         (RequestException (Some 401%Z)))
  = Returns (lit "Authentication failed. Please check your API key in the .env file.").
Proof.
  intros st.
  assert (H1 : session_active st = true) by reflexivity.
  assert (H2 : truthy (strip (lit "Hi")) = true) by reflexivity.
  assert (H3 : last_voice_text st <> Some (lit "Hi")) by discriminate.
  destruct (failed_request_yields_error_message_in_chat_history
              st (lit "Hi") (Some 401%Z) 1 2 H1 H2 H3) as [H _].
  by rewrite H.
Defined.

End FailureProps.

Section BlankInputProps.
Import Py OpenAI App.




End BlankInputProps.

Section StopProps.
Import Py OpenAI App.



End StopProps.

Section CopyProps.
Import Py Store.

Lemma fresh_list_ref (h : store) (l : ref) :
  is_Some (lists h !! l) -> fresh (dom (lists h)) <> l.
Proof.
  intros Hl Heq. apply elem_of_dom in Hl.
  apply (is_fresh (dom (lists h))). by rewrite Heq.
Qed.

Lemma fresh_list_ref_unused (h : store) :
  lists h !! fresh (dom (lists h)) = None.
Proof. apply not_elem_of_dom, is_fresh. Qed.

(** C9.  For a service whose message list exists in the store,
    [get_messages] returns a list object that is different from the
    service's own and holds the same elements in the same order.  The
    service's list is not changed by the call, and whatever is then done
    to the returned list as a list (appending, removing, replacing
    entries, ...) leaves the service's list, and the messages it denotes,
    as they were. *)
Theorem get_messages_returns_copy
    (h : store) (self_messages : ref) (xs : list ref) :
  lists h !! self_messages = Some xs ->
  exists h' l,
    get_messages h self_messages = Some (h', l)
    /\ l <> self_messages
    /\ lists h' !! l = Some xs
    /\ contents h' l = contents h self_messages
    /\ lists h' !! self_messages = Some xs
    /\ forall f : list ref -> list ref,
         lists (mutate_list h' l f) !! l = Some (f xs)
         /\ lists (mutate_list h' l f) !! self_messages = Some xs
         /\ contents (mutate_list h' l f) self_messages
            = contents h self_messages.
Proof.
  intros Hxs. unfold get_messages, list_copy. rewrite Hxs.
  set (l := fresh (dom (lists h))).
  assert (Hne : l <> self_messages) by (apply fresh_list_ref; eauto).
  eexists _, l. split; [reflexivity |]. split; [exact Hne |].
  simpl. rewrite lookup_insert_eq, lookup_insert_ne by done.
  split; [done |]. split.
  { unfold contents. simpl.
    by rewrite lookup_insert_eq, Hxs. }
  split; [done |]. intros f. unfold mutate_list, contents. simpl.
  rewrite lookup_alter_eq, lookup_alter_ne by done.
  rewrite lookup_insert_eq, lookup_insert_ne by done.
  by rewrite Hxs.
Qed.

Lemma get_messages_returns_copy_witness :
  let h := {| lists := {[ 1%positive := [2%positive] ]};
              dicts := {[ 2%positive :=
                            OpenAI.mkMessage (lit "user") (lit "Hi") ]} |} in
  exists h' l,
    get_messages h 1%positive = Some (h', l)
    /\ l <> 1%positive
    /\ lists (mutate_list h' l (fun _ => [])) !! 1%positive
       = Some [2%positive].
Proof.
  intros h.
  assert (Hx : lists h !! 1%positive = Some [2%positive]) by reflexivity.
  destruct (get_messages_returns_copy h 1%positive [2%positive] Hx)
    as (h' & l & Hget & Hne & _ & _ & _ & Hmut).
  exists h', l. split; [exact Hget |]. split; [exact Hne |].
  by destruct (Hmut (fun _ => [])) as (_ & H & _).
Defined.

(** The copy is shallow: the elements of the returned list are the
    service's own message objects, and a change made to one of them is
    seen through the service's list too. *)
Example get_messages_shares_elements :
  let h := {| lists := {[ 1%positive := [2%positive] ]};
              dicts := {[ 2%positive :=
                            OpenAI.mkMessage (lit "user") (lit "Hi") ]} |} in
  let h'' := mutate_dict h 2%positive
               (fun m => OpenAI.mkMessage (OpenAI.role m) (lit "Bye")) in
  contents h'' 1%positive
  = Some [OpenAI.mkMessage (lit "user") (lit "Bye")].
Proof. vm_compute. reflexivity. Qed.

End CopyProps.


(* ===================================================================== *)
(** * Part III: further properties of the modelled code *)
(* ===================================================================== *)

Section MessageBufferMore.
Import Py Utils.

Lemma do_call_punctuations (mb : MessageBuffer) (c : call) :
  punctuations (fst (do_call mb c)) = punctuations mb.
Proof.
  destruct c as [chunk|]; simpl.
  - unfold add_chunk. by destruct (ends_with_punctuation _ _).
  - unfold flush. by destruct (truthy _).
Qed.

Lemma run_punctuations (cs : list call) (mb : MessageBuffer) :
  punctuations (fst (run mb cs)) = punctuations mb.
Proof.
  revert mb. induction cs as [|c cs IH]; intros mb; simpl; [done |].
  pose proof (do_call_punctuations mb c) as Hc.
  destruct (do_call mb c) as [mb1 out1]. specialize (IH mb1).
  destruct (run mb1 cs) as [mb2 out2]. simpl in *. congruence.
Qed.

Lemma run_snoc (cs : list call) (c : call) (mb : MessageBuffer) :
  run mb (cs ++ [c])
  = (fst (do_call (fst (run mb cs)) c),
     snd (run mb cs) ++ snd (do_call (fst (run mb cs)) c)).
Proof.
  rewrite run_app. simpl. destruct (do_call _ c) as [mb1 out1]. simpl.
  by rewrite app_nil_r.
Qed.

(** X1.  At every moment after a buffer was cleared, whether or not it has
    been flushed, the text reported by [get_all] followed by the text still
    in the buffer is the text received since: nothing is lost while a
    sentence is being accumulated. *)
Theorem get_all_and_buffer_hold_the_received_text
    (mb0 : MessageBuffer) (cs : list call) :
  let mb := fst (run (clear mb0) cs) in
  get_all mb ++ buffer mb = concat (fragments cs).
Proof.
  intros mb. subst mb. unfold get_all. rewrite run_records. simpl.
  by rewrite run_conserves.
Qed.

Lemma do_call_units_nonempty (mb : MessageBuffer) (c : call) :
  Forall (fun u => u <> []) (snd (do_call mb c)).
Proof.
  destruct c as [chunk|]; simpl.
  - unfold add_chunk, ends_with_punctuation.
    destruct (last (buffer mb ++ chunk)) as [d|] eqn:Hl; simpl;
      [| constructor].
    destruct (contains _ _); simpl; repeat constructor.
    intros Hnil. rewrite Hnil in Hl. discriminate.
  - unfold flush. destruct (buffer mb) eqn:Hb; simpl; repeat constructor.
    discriminate.
Qed.

(** X2.  No call ever returns an empty unit: whatever the state of the
    buffer and whatever the calls, every string returned by [add_chunk] or
    [flush] has at least one character. *)
Theorem returned_units_are_not_empty (mb : MessageBuffer) (cs : list call) :
  Forall (fun u => u <> []) (snd (run mb cs)).
Proof.
  revert mb. induction cs as [|c cs IH]; intros mb; simpl; [constructor |].
  pose proof (do_call_units_nonempty mb c) as Hc.
  destruct (do_call mb c) as [mb1 out1]. specialize (IH mb1).
  destruct (run mb1 cs) as [mb2 out2]. simpl in *.
  apply Forall_app. by split.
Qed.

Lemma do_call_buffer_unterminated (mb : MessageBuffer) (c : call) :
  ends_with_punctuation (punctuations mb) (buffer mb) = false ->
  ends_with_punctuation (punctuations mb) (buffer (fst (do_call mb c)))
  = false.
Proof.
  intros Hmb. destruct c as [chunk|]; simpl.
  - unfold add_chunk.
    destruct (ends_with_punctuation _ (buffer mb ++ chunk)) eqn:He; simpl;
      [reflexivity | exact He].
  - unfold flush. destruct (truthy (buffer mb)); simpl; [reflexivity | done].
Qed.

Lemma run_buffer_unterminated (cs : list call) (mb : MessageBuffer) :
  ends_with_punctuation (punctuations mb) (buffer mb) = false ->
  ends_with_punctuation (punctuations mb) (buffer (fst (run mb cs)))
  = false.
Proof.
  revert mb. induction cs as [|c cs IH]; intros mb Hmb; simpl; [done |].
  pose proof (do_call_buffer_unterminated mb c Hmb) as Hc.
  pose proof (do_call_punctuations mb c) as Hp.
  destruct (do_call mb c) as [mb1 out1]. simpl in *.
  specialize (IH mb1). rewrite Hp in IH. specialize (IH Hc).
  by destruct (run mb1 cs) as [mb2 out2].
Qed.

(** X3.  After a buffer was cleared, the text waiting in it never ends in
    a sentence-terminal character, whatever calls are made.  Hence the two
    methods return different kinds of unit: everything [add_chunk] returns
    ends in a terminal character, and everything [flush] returns is an
    unterminated remainder. *)
Theorem add_chunk_units_terminated_flush_units_not
    (mb0 : MessageBuffer) (cs : list call) (c : call) :
  let mb := fst (run (clear mb0) cs) in
  ends_with_punctuation (punctuations mb0) (buffer mb) = false
  /\ Forall (fun u =>
               ends_with_punctuation (punctuations mb0) u
               = match c with AddChunk _ => true | Flush => false end)
            (snd (do_call mb c)).
Proof.
  intros mb.
  assert (Hp : punctuations mb = punctuations mb0)
    by (subst mb; by rewrite run_punctuations).
  assert (Hb : ends_with_punctuation (punctuations mb0) (buffer mb) = false).
  { subst mb. apply (run_buffer_unterminated cs (clear mb0)). reflexivity. }
  split; [exact Hb |]. destruct c as [chunk|]; simpl.
  - unfold add_chunk. rewrite Hp.
    destruct (ends_with_punctuation _ (buffer mb ++ chunk)) eqn:He; simpl;
      repeat constructor. exact He.
  - unfold flush. destruct (truthy (buffer mb)); simpl; repeat constructor.
    exact Hb.
Qed.

(** A second [flush] finds nothing. *)
Lemma flush_twice (mb : MessageBuffer) :
  flush (fst (flush mb)) = (fst (flush mb), None)
  /\ get_all (fst (flush (fst (flush mb)))) = get_all (fst (flush mb)).
Proof.
  assert (H : flush (fst (flush mb)) = (fst (flush mb), None)).
  { unfold flush at 1. by rewrite flush_empties. }
  by rewrite H.
Qed.

Lemma run_cons (c : call) (cs : list call) (mb : MessageBuffer) :
  run mb (c :: cs)
  = (fst (run (fst (do_call mb c)) cs),
     snd (do_call mb c) ++ snd (run (fst (do_call mb c)) cs)).
Proof.
  simpl. destruct (do_call mb c) as [mb1 out1]. simpl.
  by destruct (run mb1 cs) as [mb2 out2].
Qed.

Lemma feed_characters (ps : list str) (text : str) (mb : MessageBuffer) :
  punctuations mb = ps ->
  Forall (fun d => [d] ∉ ps) (buffer mb) ->
  Forall (fun u => exists pre c,
            u = pre ++ [c] /\ [c] ∈ ps /\ Forall (fun d => [d] ∉ ps) pre)
         (snd (feed mb (List.map (fun c => [c]) text)))
  /\ Forall (fun d => [d] ∉ ps)
            (buffer (fst (feed mb (List.map (fun c => [c]) text)))).
Proof.
  unfold feed. revert mb. induction text as [|c text IH]; intros mb Hps Hbuf.
  - simpl. split; [constructor | exact Hbuf].
  - cbn [List.map]. rewrite run_cons. cbn [fst snd do_call].
    pose proof (do_call_punctuations mb (AddChunk [c])) as Hp.
    cbn [do_call] in Hp.
    assert (Hstep :
      (snd (add_chunk mb [c]) = [buffer mb ++ [c]] /\ [c] ∈ ps
       /\ buffer (fst (add_chunk mb [c])) = [])
      \/ (snd (add_chunk mb [c]) = [] /\ ([c] ∉ ps)
          /\ buffer (fst (add_chunk mb [c])) = buffer mb ++ [c])).
    { unfold add_chunk, ends_with_punctuation. rewrite last_snoc, Hps.
      destruct (contains ps [c]) eqn:Hc; simpl.
      - left. by apply contains_spec in Hc.
      - right. repeat split. intros Hin. apply contains_spec in Hin.
        congruence. }
    destruct Hstep as [(Hout & Hc & Hb)|(Hout & Hc & Hb)];
      rewrite Hout; destruct (IH (fst (add_chunk mb [c]))) as [IH1 IH2];
      try congruence.
    + rewrite Hb. constructor.
    + split; [| exact IH2]. constructor; [| exact IH1].
      by exists (buffer mb), c.
    + rewrite Hb. apply Forall_app. split; [exact Hbuf | by constructor].
    + by split.
Qed.

(** X4.  When the text arrives one character per fragment, the buffer does
    split at every boundary: each unit returned holds exactly one
    sentence-terminal character, its last one, and the text left in the
    buffer holds none. *)
Theorem character_wise_feeding_splits_at_every_terminal
    (mb0 : MessageBuffer) (text : str) :
  let ps := punctuations mb0 in
  let r := feed (clear mb0) (List.map (fun c => [c]) text) in
  Forall (fun u => exists pre c,
            u = pre ++ [c] /\ [c] ∈ ps /\ Forall (fun d => [d] ∉ ps) pre)
         (snd r)
  /\ Forall (fun d => [d] ∉ ps) (buffer (fst r)).
Proof.
  intros ps r. apply feed_characters; [reflexivity | constructor].
Qed.

End MessageBufferMore.

Section SplitProps.
Import Py Utils.

Lemma filter_drop_leading (ws : N -> bool) (s : str) :
  List.filter (fun c => negb (ws c)) (drop_leading ws s)
  = List.filter (fun c => negb (ws c)) s.
Proof.
  induction s as [|c s IH]; simpl; [done |].
  destruct (ws c) eqn:Hc; simpl; [exact IH | by rewrite Hc].
Qed.

Lemma filter_strip_by (ws : N -> bool) (s : str) :
  List.filter (fun c => negb (ws c)) (strip_by ws s)
  = List.filter (fun c => negb (ws c)) s.
Proof.
  unfold strip_by.
  rewrite List.filter_rev, filter_drop_leading, List.filter_rev.
  by rewrite rev_involutive, filter_drop_leading.
Qed.

Lemma filter_white_space (ws : N -> bool) (s : str) :
  Forall (fun c => ws c = true) s ->
  List.filter (fun c => negb (ws c)) s = [].
Proof.
  induction 1 as [|c l Hc _ IH]; simpl; [done |]. by rewrite Hc.
Qed.

Lemma split_loop_keeps_text (ps : list str) (text : str)
    (sentences : list str) (current : str) :
  let r := split_loop ps text sentences current in
  List.filter (fun c => negb (isspace c)) (concat (fst r) ++ snd r)
  = List.filter (fun c => negb (isspace c))
                (concat sentences ++ current ++ text).
Proof.
  revert sentences current.
  induction text as [|c text IH]; intros sentences current; simpl.
  - by rewrite app_nil_r.
  - destruct (contains ps [c]).
    + rewrite IH. rewrite concat_app. simpl.
      rewrite !List.filter_app, app_nil_r. unfold strip.
      rewrite filter_strip_by, List.filter_app. simpl.
      destruct (negb (isspace c)); simpl; by rewrite <- ?app_assoc.
    + rewrite IH. by rewrite <- !app_assoc.
Qed.

(** X5.  [split_into_sentences] only removes white space: the characters
    of the sentences it returns, white space left aside, are the characters
    of the text, white space left aside, in the same order. *)
Theorem split_into_sentences_keeps_all_but_white_space
    (text : str) (punctuations : option (list str)) :
  List.filter (fun c => negb (isspace c))
              (concat (split_into_sentences text punctuations))
  = List.filter (fun c => negb (isspace c)) text.
Proof.
  unfold split_into_sentences.
  set (ps := match punctuations with
             | Some ps => ps
             | None => split_default_punctuations
             end).
  pose proof (split_loop_keeps_text ps text [] []) as H. simpl in H.
  destruct (split_loop ps text [] []) as [sentences current]. simpl in H.
  rewrite <- H, List.filter_app.
  destruct (truthy (strip current)) eqn:Ht.
  - rewrite concat_app, List.filter_app. simpl. rewrite app_nil_r.
    unfold strip. by rewrite filter_strip_by.
  - apply truthy_false_iff in Ht. apply strip_by_nil_iff in Ht.
    by rewrite (filter_white_space _ _ Ht), app_nil_r.
Qed.

(** The ends of a stripped string. *)
Lemma drop_leading_head (ws : N -> bool) (s : str) (c : N) :
  head (drop_leading ws s) = Some c -> ws c = false.
Proof.
  induction s as [|d s IH]; simpl; [discriminate |].
  destruct (ws d) eqn:Hd; [exact IH |]. simpl. congruence.
Qed.

Lemma rev_is_reverse {A : Type} (l : list A) : rev l = reverse l.
Proof. unfold reverse. apply rev_alt. Qed.

Lemma strip_by_ends (ws : N -> bool) (s : str) (c : N) :
  head (strip_by ws s) = Some c \/ last (strip_by ws s) = Some c ->
  ws c = false.
Proof.
  unfold strip_by. rewrite !rev_is_reverse, head_reverse, last_reverse.
  intros [H|H].
  - destruct (drop_leading_suffix ws (reverse (drop_leading ws s)))
      as [pre Hpre].
    assert (Hl : last (reverse (drop_leading ws s)) = Some c).
    { rewrite Hpre, last_app, H. done. }
    rewrite last_reverse in Hl. by apply drop_leading_head in Hl.
  - by apply drop_leading_head in H.
Qed.

Lemma split_loop_sentences (ps : list str) (text : str)
    (sentences : list str) (current : str) (P : str -> Prop) :
  (forall cur c, [c] ∈ ps -> P (strip (cur ++ [c]))) ->
  Forall P sentences ->
  Forall P (fst (split_loop ps text sentences current)).
Proof.
  intros HP. revert sentences current.
  induction text as [|c text IH]; intros sentences current Hs; simpl;
    [exact Hs |].
  destruct (contains ps [c]) eqn:Hc.
  - apply IH. apply Forall_app. split; [exact Hs |]. constructor; [| done].
    apply HP. by apply contains_spec.
  - by apply IH.
Qed.

(** X6.  When no terminal character is a white-space character, as for the
    default list, every sentence returned by [split_into_sentences] has at
    least one character and neither begins nor ends with white space. *)
Theorem split_into_sentences_gives_stripped_sentences
    (text : str) (ps : list str) :
  (forall c, [c] ∈ ps -> isspace c = false) ->
  Forall (fun sentence =>
            sentence <> []
            /\ (forall c, head sentence = Some c \/ last sentence = Some c ->
                          isspace c = false))
         (split_into_sentences text (Some ps)).
Proof.
  intros Hps. unfold split_into_sentences.
  pose proof (split_loop_sentences ps text [] []
    (fun sentence =>
       sentence <> []
       /\ (forall c, head sentence = Some c \/ last sentence = Some c ->
                     isspace c = false))) as H.
  destruct (split_loop ps text [] []) as [sentences current]. simpl in H.
  assert (Hs : Forall (fun sentence =>
            sentence <> []
            /\ (forall c, head sentence = Some c \/ last sentence = Some c ->
                          isspace c = false)) sentences).
  { apply H; [| constructor]. intros cur c Hc. split.
    - intros Hnil. apply strip_by_nil_iff in Hnil.
      apply Forall_app in Hnil as [_ Hnil].
      apply Forall_cons in Hnil as [Hnil _].
      rewrite (Hps c Hc) in Hnil. discriminate.
    - intros d. apply strip_by_ends. }
  destruct (truthy (strip current)) eqn:Ht; [| exact Hs].
  apply Forall_app. split; [exact Hs |]. constructor; [| constructor].
  split.
  - intros Hnil. rewrite Hnil in Ht. discriminate.
  - intros d. apply strip_by_ends.
Qed.

Lemma default_punctuations_not_white_space (c : N) :
  [c] ∈ split_default_punctuations -> isspace c = false.
Proof.
  unfold split_default_punctuations. rewrite !elem_of_cons.
  rewrite elem_of_nil.
  intros H. repeat destruct H as [H|H]; try done;
    injection H as ->; reflexivity.
Qed.

Lemma split_into_sentences_gives_stripped_sentences_witness :
  Forall (fun sentence =>
            sentence <> []
            /\ (forall c, head sentence = Some c \/ last sentence = Some c ->
                          isspace c = false))
         (split_into_sentences (lit " One. Two ") 
                               (Some split_default_punctuations)).
Proof.
  apply (split_into_sentences_gives_stripped_sentences
           (lit " One. Two ") split_default_punctuations).
  exact default_punctuations_not_white_space.
Defined.



End SplitProps.

Section SanitizeMore.
Import Py Utils.

Lemma strip_by_infix (ws : N -> bool) (s : str) :
  exists pre post, s = pre ++ strip_by ws s ++ post.
Proof.
  unfold strip_by.
  destruct (drop_leading_suffix ws s) as [pre Hpre].
  destruct (drop_leading_suffix ws (rev (drop_leading ws s))) as [p2 Hp2].
  exists pre, (rev p2). rewrite <- rev_app_distr, <- Hp2.
  by rewrite rev_involutive.
Qed.

Lemma list_filter_sublist (f : N -> bool) (s : str) :
  List.filter f s `sublist_of` s.
Proof.
  induction s as [|c s IH]; simpl; [constructor |].
  destruct (f c); by constructor.
Qed.

Lemma slice_to_prefix (s : str) (n : Z) : slice_to s n `prefix_of` s.
Proof. unfold slice_to. destruct (n <? 0)%Z; apply prefix_take. Qed.

(** X8.  [sanitize_input] only deletes: its result is obtained from the
    text by removing characters, so it never holds a character that was not
    in the text and never changes the order of the characters. *)
Theorem sanitize_input_only_deletes (text : str) (max_length : Z) :
  sanitize_input text max_length `sublist_of` text.
Proof.
  unfold sanitize_input. destruct (truthy text); simpl;
    [| apply sublist_nil_l].
  set (text1 := List.filter _ text).
  assert (H1 : text1 `sublist_of` text) by apply list_filter_sublist.
  assert (H2 : strip text1 `sublist_of` text1).
  { destruct (strip_by_infix isspace text1) as (pre & post & Heq).
    rewrite Heq at 2. apply sublist_inserts_l, sublist_inserts_r.
    reflexivity. }
  destruct (_ >? _)%Z.
  - etransitivity; [| exact H1]. etransitivity; [| exact H2].
    unfold slice_to. destruct (_ <? _)%Z; apply sublist_take.
  - by etransitivity.
Qed.

(** X9.  The result of [sanitize_input] never begins with white space,
    whatever the length bound; when the text fits into the bound after
    cleaning, it does not end with white space either. *)
Theorem sanitize_input_has_no_leading_white_space
    (text : str) (max_length : Z) (c : N) :
  (head (sanitize_input text max_length) = Some c -> isspace c = false)
  /\ ((Z.of_nat (length (strip (List.filter
                                  (fun c => negb (removed_control c)) text)))
       <= max_length)%Z ->
      last (sanitize_input text max_length) = Some c -> isspace c = false).
Proof.
  unfold sanitize_input. destruct (truthy text); simpl;
    [| split; intros; discriminate].
  set (text2 := strip _). split.
  - intros H. apply (strip_by_ends isspace
      (List.filter (fun c => negb (removed_control c)) text)).
    left. fold (strip (List.filter (fun c => negb (removed_control c)) text)).
    fold text2. destruct (_ >? _)%Z; [| exact H].
    destruct (slice_to_prefix text2 max_length) as [rest Hrest].
    rewrite Hrest. destruct (slice_to text2 max_length); [discriminate |].
    exact H.
  - intros Hfit H.
    destruct (Z.of_nat (length text2) >? max_length)%Z eqn:Hgt; [lia |].
    apply (strip_by_ends isspace
      (List.filter (fun c => negb (removed_control c)) text)).
    by right.
Qed.

Lemma drop_leading_fixed (ws : N -> bool) (s : str) :
  (forall c, head s = Some c -> ws c = false) -> drop_leading ws s = s.
Proof.
  destruct s as [|c s]; simpl; [done |]. intros H. by rewrite (H c).
Qed.

Lemma strip_by_fixed (ws : N -> bool) (s : str) :
  (forall c, head s = Some c \/ last s = Some c -> ws c = false) ->
  strip_by ws s = s.
Proof.
  intros H. unfold strip_by.
  rewrite (drop_leading_fixed ws s) by (intros c Hc; apply H; by left).
  rewrite drop_leading_fixed; [apply rev_involutive |].
  intros c Hc. apply H. right.
  by rewrite rev_is_reverse, head_reverse in Hc.
Qed.

Lemma list_filter_fixed (f : N -> bool) (s : str) :
  Forall (fun c => f c = true) s -> List.filter f s = s.
Proof.
  induction 1 as [|c l Hc _ IH]; simpl; [done |]. by rewrite Hc, IH.
Qed.

(** X10.  A text that is already clean is returned as it is, namely when
    it holds no character of the removed ranges, neither begins nor ends
    with white space, and is not longer than the bound. *)
Theorem sanitize_input_keeps_clean_text (text : str) (max_length : Z) :
  Forall (fun c => removed_control c = false) text ->
  (forall c, head text = Some c \/ last text = Some c -> isspace c = false) ->
  (Z.of_nat (length text) <= max_length)%Z ->
  sanitize_input text max_length = text.
Proof.
  intros Hclean Hends Hlen. unfold sanitize_input.
  destruct text as [|c0 text0] eqn:Htext; [done |]. simpl negb. cbv iota.
  rewrite list_filter_fixed.
  - unfold strip. rewrite strip_by_fixed by done.
    destruct (_ >? _)%Z eqn:Hgt; [lia | done].
  - eapply Forall_impl; [exact Hclean |]. intros d Hd. simpl in Hd.
    by rewrite Hd.
Qed.

Lemma sanitize_input_keeps_clean_text_witness :
  sanitize_input (lit "What is 2+2?") 5000 = lit "What is 2+2?".
Proof.
  apply (sanitize_input_keeps_clean_text (lit "What is 2+2?") 5000).
  - apply Forall_forall. intros c Hc. apply list_elem_of_In in Hc.
    vm_compute in Hc.
    repeat (destruct Hc as [<-|Hc]; [reflexivity |]). destruct Hc.
  - intros c [H|H]; vm_compute in H; injection H as <-; reflexivity.
  - vm_compute. discriminate.
Defined.

End SanitizeMore.

Section EscapeProps.
Import Py Utils Avatar.

Lemma replace_app (a b : str) (c : N) (by_ : str) :
  replace (a ++ b) c by_ = replace a c by_ ++ replace b c by_.
Proof. unfold replace. apply flat_map_app. Qed.

Lemma html_escape_app (a b : str) :
  html_escape (a ++ b) = html_escape a ++ html_escape b.
Proof. unfold html_escape. by rewrite !replace_app. Qed.

Lemma html_escape_single (c : N) :
  html_escape [c]
  = if c =? 0x26 then lit "&amp;"
    else if c =? 0x3C then lit "&lt;"
    else if c =? 0x3E then lit "&gt;"
    else if c =? 0x22 then lit "&quot;"
    else if c =? 0x27 then lit "&#x27;"
    else [c].
Proof.
  unfold html_escape, replace. simpl.
  destruct (c =? 0x26) eqn:H1; [reflexivity |]. simpl.
  destruct (c =? 0x3C) eqn:H2; [reflexivity |]. simpl.
  destruct (c =? 0x3E) eqn:H3; [reflexivity |]. simpl.
  destruct (c =? 0x22) eqn:H4; [reflexivity |]. simpl.
  destruct (c =? 0x27) eqn:H5; reflexivity.
Qed.

Lemma html_escape_cons (c : N) (s : str) :
  html_escape (c :: s) = html_escape [c] ++ html_escape s.
Proof. apply (html_escape_app [c] s). Qed.

Ltac split_code c :=
  rewrite (html_escape_single c);
  destruct (N.eqb_spec c 0x26) as [->|?]; [|
  destruct (N.eqb_spec c 0x3C) as [->|?]; [|
  destruct (N.eqb_spec c 0x3E) as [->|?]; [|
  destruct (N.eqb_spec c 0x22) as [->|?]; [|
  destruct (N.eqb_spec c 0x27) as [->|?]]]]].

Lemma html_escape_clean (text : str) :
  Forall (fun d => d <> 0x3C /\ d <> 0x3E /\ d <> 0x22 /\ d <> 0x27)
         (html_escape text).
Proof.
  induction text as [|c text IH]; [constructor |].
  rewrite html_escape_cons. apply Forall_app. split; [| exact IH].
  split_code c; vm_compute lit; repeat constructor; done.
Qed.

(** X11.  The text produced by [html_encode] holds none of the characters
    [<], [>], the double quote and the apostrophe. *)
Theorem html_encode_leaves_no_markup_character (text : str) :
  Forall (fun d => d <> 0x3C /\ d <> 0x3E /\ d <> 0x22 /\ d <> 0x27)
         (html_encode text).
Proof. unfold html_encode. apply html_escape_clean. Qed.

Lemma html_escape_single_prefix_free (c d : N) (a b : str) :
  html_escape [c] ++ a = html_escape [d] ++ b -> c = d /\ a = b.
Proof.
  split_code c; split_code d; vm_compute lit; simpl; intros H;
    injection H; intros; subst; done.
Qed.

Lemma html_escape_injective (text1 text2 : str) :
  html_escape text1 = html_escape text2 -> text1 = text2.
Proof.
  revert text2.
  induction text1 as [|c text1 IH]; intros [|d text2] H.
  - done.
  - rewrite html_escape_cons in H. revert H.
    split_code d; vm_compute lit; discriminate.
  - rewrite html_escape_cons in H. revert H.
    split_code c; vm_compute lit; discriminate.
  - rewrite (html_escape_cons c text1), (html_escape_cons d text2) in H.
    apply html_escape_single_prefix_free in H as [-> H].
    by rewrite (IH _ H).
Qed.

(** X12.  [html_encode] loses nothing: two different texts never have the
    same encoding. *)
Theorem html_encode_is_injective (text1 text2 : str) :
  html_encode text1 = html_encode text2 -> text1 = text2.
Proof. unfold html_encode. apply html_escape_injective. Qed.

Lemma html_encode_is_injective_witness : lit "a<b" = lit "a<b".
Proof.
  apply (html_encode_is_injective (lit "a<b") (lit "a<b")). reflexivity.
Defined.

Lemma occurrences_app (c : N) (a b : str) :
  occurrences c (a ++ b) = (occurrences c a + occurrences c b)%nat.
Proof. unfold occurrences. by rewrite List.filter_app, length_app. Qed.

Lemma occurrences_html_escape (c : N) (text : str) :
  c = 0x3C \/ c = 0x3E \/ c = 0x22 \/ c = 0x27 ->
  occurrences c (html_escape text) = 0%nat.
Proof.
  intros Hc. unfold occurrences.
  pose proof (html_escape_clean text) as H.
  induction H as [|d l (H1 & H2 & H3 & H4) _ IH]; simpl; [done |].
  destruct (N.eqb_spec d c) as [->|?]; [| exact IH].
  destruct Hc as [-> | [-> | [-> | ->]]]; done.
Qed.

(** X13.  The text cannot change the structure of the SSML document that
    [_create_ssml] builds around it: the numbers of [<], [>], double quotes
    and apostrophes in the document do not depend on the text, and for a
    given voice and silence different texts give different documents. *)
Theorem create_ssml_text_cannot_add_markup
    (text text' voice : str) (ending_silence_ms : Z) (c : N) :
  (c = 0x3C \/ c = 0x3E \/ c = 0x22 \/ c = 0x27 ->
   occurrences c (_create_ssml text voice ending_silence_ms)
   = occurrences c (_create_ssml text' voice ending_silence_ms))
  /\ (_create_ssml text voice ending_silence_ms
      = _create_ssml text' voice ending_silence_ms -> text = text').
Proof.
  unfold _create_ssml. split.
  - intros Hc. destruct (_ >? _)%Z;
      rewrite !occurrences_app, !occurrences_html_escape by done; lia.
  - intros H. apply html_escape_injective.
    destruct (_ >? _)%Z.
    + apply app_inv_tail in H. apply app_inv_tail in H.
      by do 3 apply app_inv_head in H.
    + apply app_inv_tail in H. by do 3 apply app_inv_head in H.
Qed.

(** The two documents of the unit tests. *)
Example create_ssml_examples :
  occurs_in (lit "<speak") (_create_ssml (lit "Hello world") (lit "v") 0)
  = true
  /\ occurs_in (lit "Hello world")
       (_create_ssml (lit "Hello world") (lit "v") 0) = true
  /\ occurs_in (lit "</speak>")
       (_create_ssml (lit "Hello world") (lit "v") 0) = true
  /\ occurs_in (lit "<break time='1000ms'")
       (_create_ssml (lit "Hello world") (lit "v") 1000) = true
  /\ occurs_in (lit "<break")
       (_create_ssml (lit "Hello world") (lit "v") 0) = false.
Proof. vm_compute. repeat split. Qed.

End EscapeProps.

Section EndpointProps.
Import Py Utils.

Lemma startswith_spec (s p : str) :
  startswith s p = true <-> exists rest, s = p ++ rest.
Proof.
  revert s. induction p as [|a p IH]; intros s; simpl.
  - split; [by exists s | by destruct s].
  - destruct s as [|b s]; simpl.
    + split; [discriminate | intros [rest H]; discriminate].
    + rewrite andb_true_iff, N.eqb_eq, IH. split.
      * intros (-> & rest & ->). by exists rest.
      * intros (rest & H). injection H as -> ->. split; [done | by exists rest].
Qed.

Lemma occurs_in_spec (p s : str) :
  occurs_in p s = true <-> exists pre post, s = pre ++ p ++ post.
Proof.
  induction s as [|c s IH]; cbn [occurs_in].
  - rewrite orb_false_r, startswith_spec. split.
    + intros (rest & H). by exists [], rest.
    + intros (pre & post & H). symmetry in H.
      apply app_eq_nil in H as [-> H]. by exists post.
  - rewrite orb_true_iff, startswith_spec, IH. split.
    + intros [(rest & H)|(pre & post & H)].
      * by exists [], rest.
      * exists (c :: pre), post. by rewrite H.
    + intros (pre & post & H). destruct pre as [|d pre].
      * left. by exists post.
      * right. injection H as -> ->. by exists pre, post.
Qed.

(** X14.  [validate_azure_endpoint] accepts exactly the strings that begin
    with [https://] and hold one of the four Azure domain names somewhere,
    not necessarily in the host part.  Hence an accepted endpoint stays
    accepted whatever is appended to it. *)
Theorem validate_azure_endpoint_accepts
    (endpoint : str) :
  (validate_azure_endpoint endpoint = true
   <-> (exists rest, endpoint = lit "https://" ++ rest)
       /\ exists domain pre post,
            domain ∈ azure_domains /\ endpoint = pre ++ domain ++ post)
  /\ forall suffix,
       validate_azure_endpoint endpoint = true ->
       validate_azure_endpoint (endpoint ++ suffix) = true.
Proof.
  assert (Hiff : forall e,
    validate_azure_endpoint e = true
    <-> (exists rest, e = lit "https://" ++ rest)
        /\ exists domain pre post,
             domain ∈ azure_domains /\ e = pre ++ domain ++ post).
  { intros e. unfold validate_azure_endpoint.
    destruct e as [|c e]; cbn [truthy negb].
    - split; [discriminate |]. intros [[rest H] _]. discriminate.
    - destruct (startswith (c :: e) (lit "https://")) eqn:Hs; cbn [negb].
      + apply startswith_spec in Hs. rewrite existsb_exists. split.
        * intros (d & Hd & Ho). split; [exact Hs |].
          apply occurs_in_spec in Ho as (pre & post & Ho).
          exists d, pre, post. split; [by apply list_elem_of_In | exact Ho].
        * intros (_ & d & pre & post & Hd & Ho). exists d.
          split; [by apply list_elem_of_In |].
          apply occurs_in_spec. by exists pre, post.
      + split; [discriminate |]. intros [Hp _].
        apply startswith_spec in Hp. congruence. }
  split; [apply Hiff |]. intros suffix H.
  apply Hiff in H as ((rest & Hr) & d & pre & post & Hd & Ho).
  apply Hiff. split.
  - exists (rest ++ suffix). by rewrite Hr, <- app_assoc.
  - exists d, pre, (post ++ suffix). split; [exact Hd |].
    by rewrite Ho, <- !app_assoc.
Qed.

Lemma occurs_in_single (c : N) (s : str) :
  occurs_in [c] s = false <-> c ∉ s.
Proof.
  rewrite <- not_true_iff_false, occurs_in_spec. split.
  - intros H Hin. apply H. apply list_elem_of_split in Hin as (pre & post & ->).
    by exists pre, post.
  - intros H (pre & post & ->). apply H. set_solver.
Qed.

Lemma split_first (s : str) (sep : N) :
  exists first others,
    split s sep = first :: others /\ (sep ∉ first)
    /\ ((others = [] /\ s = first) \/ exists rest, s = first ++ sep :: rest).
Proof.
  induction s as [|c s (first & others & Hs & Hn & IH)]; simpl.
  - exists [], []. split; [done |]. split; [set_solver | by left].
  - destruct (N.eqb_spec c sep) as [->|Hc].
    + exists [], (split s sep). split; [done |]. split; [set_solver |].
      right. by exists s.
    + rewrite Hs. exists (c :: first), others. split; [done |].
      split; [by apply not_elem_of_cons |].
      destruct IH as [[-> ->]|[rest ->]]; [by left | right; by exists rest].
Qed.

(** X15.  [get_language_from_locale] returns the part of the locale before
    its first hyphen, and the whole locale when it has none: the result is
    a prefix of the locale, holds no hyphen, and is followed in the locale
    by a hyphen or by nothing. *)
Theorem get_language_from_locale_is_the_part_before_the_hyphen
    (locale : str) :
  exists rest,
    locale = get_language_from_locale locale ++ rest
    /\ (0x2D ∉ get_language_from_locale locale)
    /\ (rest = [] \/ head rest = Some 0x2D).
Proof.
  unfold get_language_from_locale.
  destruct (occurs_in (lit "-") locale) eqn:Ho.
  - destruct (split_first locale 0x2D)
      as (first & others & Hs & Hn & [[-> ->]|[rest ->]]); rewrite Hs.
    + exists []. rewrite app_nil_r. split; [done |]. split; [done | by left].
    + exists (0x2D :: rest). split; [done |]. split; [done | by right].
  - exists []. rewrite app_nil_r. split; [done |].
    split; [| by left]. by apply occurs_in_single.
Qed.

End EndpointProps.

Section SpeechQueueMore.
Import Py Avatar.

Lemma step_accounts (s s' : AvatarService) (e : event) :
  step s e = Some s' ->
  rendered s' ++ spoken_text_queue s'
    ⊆+ rendered s ++ spoken_text_queue s ++ spoken [e]
  /\ (Forall (fun t => blank t = false) (spoken_text_queue s) ->
      Forall (fun t => blank t = false) (spoken [e]) ->
      rendered s' ++ spoken_text_queue s'
        ≡ₚ rendered s ++ spoken_text_queue s ++ spoken [e]
      /\ Forall (fun t => blank t = false) (spoken_text_queue s')).
Proof.
  destruct s as [a sp q sy r]. destruct e as [text|o]; simpl.
  - intros H. injection H as <-. unfold speak. simpl.
    destruct sp; simpl.
    + split; [done |]. intros Hq Ht. split; [done |].
      apply Forall_app. by split.
    + unfold _speak_next. destruct (blank text) eqn:Hb; simpl.
      * split.
        { rewrite app_assoc. apply submseteq_inserts_r. reflexivity. }
        intros _ Ht. apply Forall_cons in Ht as [Ht _]. congruence.
      * assert (Hp : (r ++ [text]) ++ q ≡ₚ r ++ q ++ [text]).
        { rewrite <- app_assoc. apply Permutation_app_head.
          apply Permutation_app_comm. }
        split; [by rewrite Hp |]. intros Hq _. by split.
  - destruct sy as [|t still]; [discriminate |].
    intros H. injection H as <-. rewrite !app_nil_r.
    destruct o as [[| |]|]; simpl; try (split; [done | by intros Hq _]).
    destruct q as [|next_text rest]; simpl;
      [split; [done | by intros Hq _] |].
    unfold _speak_next. destruct (blank next_text) eqn:Hb; simpl.
    + split.
      { apply submseteq_app; [reflexivity |]. by apply submseteq_cons. }
      intros Hq _. apply Forall_cons in Hq as [Hq _]. congruence.
    + rewrite <- app_assoc. simpl. split; [done |].
      intros Hq _. apply Forall_cons in Hq as [_ Hq]. by split.
Qed.

Lemma spoken_cons (e : event) (evs : list event) :
  spoken (e :: evs) = spoken [e] ++ spoken evs.
Proof. unfold spoken. simpl. by rewrite app_nil_r. Qed.

Lemma exec_accounts (evs : list event) (s s' : AvatarService) :
  exec s evs = Some s' ->
  rendered s' ++ spoken_text_queue s'
    ⊆+ rendered s ++ spoken_text_queue s ++ spoken evs
  /\ (Forall (fun t => blank t = false) (spoken_text_queue s) ->
      Forall (fun t => blank t = false) (spoken evs) ->
      rendered s' ++ spoken_text_queue s'
        ≡ₚ rendered s ++ spoken_text_queue s ++ spoken evs).
Proof.
  revert s. induction evs as [|e evs IH]; intros s Hex.
  - simpl in Hex. injection Hex as <-. simpl. rewrite app_nil_r.
    by split.
  - simpl in Hex. destruct (step s e) as [s1|] eqn:Hstep; [| discriminate].
    destruct (step_accounts s s1 e Hstep) as [H1 H2].
    destruct (IH s1 Hex) as [IH1 IH2]. rewrite spoken_cons. split.
    + etransitivity; [exact IH1 |].
      rewrite (app_assoc (rendered s1)), !(app_assoc (rendered s)).
      rewrite (app_assoc _ (spoken [e])).
      apply submseteq_app; [| reflexivity].
      by rewrite <- !app_assoc.
    + intros Hq Hs. apply Forall_app in Hs as [He Hs].
      destruct (H2 Hq He) as [H3 H4]. rewrite (IH2 H4 Hs).
      rewrite (app_assoc (rendered s1)), H3. by rewrite <- !app_assoc.
Qed.

(** X16.  The service never renders a text it was not given, and none more
    often than it was given: along every sequence of [speak] calls and
    returns of synthesis calls, whatever their results, the texts rendered
    or waiting are among the texts that were rendered or waiting before and
    the texts given to [speak] since, each counted as often as it occurs.
    When all these texts are speakable none is lost either: they are the
    same texts up to their order. *)
Theorem units_neither_invented_nor_lost
    (evs : list event) (s s' : AvatarService) :
  exec s evs = Some s' ->
  rendered s' ++ spoken_text_queue s'
    ⊆+ rendered s ++ spoken_text_queue s ++ spoken evs
  /\ (Forall (fun t => blank t = false) (spoken_text_queue s) ->
      Forall (fun t => blank t = false) (spoken evs) ->
      rendered s' ++ spoken_text_queue s'
        ≡ₚ rendered s ++ spoken_text_queue s ++ spoken evs).
Proof. apply exec_accounts. Qed.

Lemma units_neither_invented_nor_lost_witness :
  exists s',
    exec init [Speak (lit "A."); Speak (lit "B.");
               Synthesized (Result Canceled); Speak (lit "C.")] = Some s'
    /\ rendered s' ++ spoken_text_queue s'
       ≡ₚ [lit "A."; lit "B."; lit "C."].
Proof.
  eexists. split; [reflexivity |].
  refine (proj2 (units_neither_invented_nor_lost
    [Speak (lit "A."); Speak (lit "B.");
     Synthesized (Result Canceled); Speak (lit "C.")] init _ eq_refl) _ _).
  - constructor.
  - repeat constructor.
Defined.

Lemma step_stuck (s s' : AvatarService) (e : event) :
  is_speaking s = true -> synthesizing s = [] -> step s e = Some s' ->
  is_speaking s' = true /\ synthesizing s' = []
  /\ rendered s' = rendered s
  /\ spoken_text_queue s' = spoken_text_queue s ++ spoken [e]
  /\ returns [e] = 0%nat.
Proof.
  destruct s as [a sp q sy r]. simpl. intros -> ->.
  destruct e as [text|o]; simpl; [| discriminate].
  intros H. injection H as <-. by simpl.
Qed.

(** X17.  A service whose [is_speaking] flag is set while no synthesis
    call is outstanding stays like that: whatever is given to [speak] is
    only queued, nothing is rendered any more, and no return of a synthesis
    call can occur, so the flag is never cleared by the queue itself.  The
    service gets into this state when a synthesis completes and the next
    text in the queue is blank, and when a synthesis call returns a result
    that is neither completed nor cancelled. *)
Theorem speaking_flag_without_call_blocks_the_queue
    (s : AvatarService) (t b : str) (q : list str) :
  is_speaking s = true ->
  (synthesizing s = [] ->
   forall evs s', exec s evs = Some s' ->
     is_speaking s' = true /\ synthesizing s' = []
     /\ rendered s' = rendered s
     /\ spoken_text_queue s' = spoken_text_queue s ++ spoken evs
     /\ returns evs = 0%nat)
  /\ (synthesizing s = [t] -> spoken_text_queue s = b :: q ->
      blank b = true ->
      exists s', step s completed = Some s'
        /\ is_speaking s' = true /\ synthesizing s' = []
        /\ rendered s' = rendered s /\ spoken_text_queue s' = q)
  /\ (synthesizing s = [t] ->
      exists s', step s (Synthesized (Result OtherReason)) = Some s'
        /\ is_speaking s' = true /\ synthesizing s' = []
        /\ rendered s' = rendered s
        /\ spoken_text_queue s' = spoken_text_queue s).
Proof.
  intros Hsp. split; [| split].
  - intros Hsy evs. revert s Hsp Hsy.
    induction evs as [|e evs IH]; intros s Hsp Hsy s' Hex.
    + simpl in Hex. injection Hex as <-. simpl. by rewrite app_nil_r.
    + simpl in Hex. destruct (step s e) as [s1|] eqn:Hstep; [| discriminate].
      destruct (step_stuck s s1 e Hsp Hsy Hstep)
        as (H1 & H2 & H3 & H4 & H5).
      destruct (IH s1 H1 H2 s' Hex) as (I1 & I2 & I3 & I4 & I5).
      rewrite spoken_cons, returns_cons, I3, I4, H3, H4, H5, I5.
      by rewrite <- app_assoc.
  - destruct s as [a sp qs sy r]. simpl in *. intros -> -> Hb.
    eexists. split; [reflexivity |]. simpl. unfold _speak_next.
    rewrite Hb. by simpl.
  - destruct s as [a sp qs sy r]. simpl in *. intros ->.
    eexists. split; [reflexivity |]. by simpl.
Qed.

Lemma speaking_flag_without_call_blocks_the_queue_witness :
  exists s',
    step {| avatar_synthesizer := false; is_speaking := true;
            spoken_text_queue := [lit " "; lit "C."];
            synthesizing := [lit "A."]; rendered := [lit "A."] |}
         completed = Some s'
    /\ is_speaking s' = true /\ synthesizing s' = []
    /\ rendered s' = [lit "A."] /\ spoken_text_queue s' = [lit "C."].
Proof.
  refine (proj1 (proj2 (speaking_flag_without_call_blocks_the_queue
    {| avatar_synthesizer := false; is_speaking := true;
       spoken_text_queue := [lit " "; lit "C."];
       synthesizing := [lit "A."]; rendered := [lit "A."] |}
    (lit "A.") (lit " ") [lit "C."] eq_refl)) eq_refl eq_refl eq_refl).
Defined.

(** X18.  When the synthesis of a unit is cancelled or raises, the flag is
    cleared but the waiting units stay in the queue.  A unit given to
    [speak] after that is rendered at once, before the units that have been
    waiting longer. *)
Theorem failed_synthesis_lets_later_unit_overtake
    (s : AvatarService) (t u : str) (o : synthesis) :
  is_speaking s = true -> synthesizing s = [t] -> blank u = false ->
  o = Result Canceled \/ o = Exception ->
  exists s1 s2,
    step s (Synthesized o) = Some s1
    /\ is_speaking s1 = false
    /\ spoken_text_queue s1 = spoken_text_queue s
    /\ step s1 (Speak u) = Some s2
    /\ rendered s2 = rendered s ++ [u]
    /\ synthesizing s2 = [u]
    /\ spoken_text_queue s2 = spoken_text_queue s.
Proof.
  destruct s as [a sp q sy r]. simpl. intros -> -> Hu [-> | ->];
    (eexists _, _; split; [reflexivity |]; simpl;
     repeat (split; [reflexivity |]);
     unfold speak, _speak_next; simpl; rewrite Hu; simpl; by repeat split).
Qed.

Lemma failed_synthesis_lets_later_unit_overtake_witness :
  exists s1 s2,
    step {| avatar_synthesizer := false; is_speaking := true;
            spoken_text_queue := [lit "B."];
            synthesizing := [lit "A."]; rendered := [lit "A."] |}
         (Synthesized Exception) = Some s1
    /\ is_speaking s1 = false
    /\ spoken_text_queue s1 = [lit "B."]
    /\ step s1 (Speak (lit "C.")) = Some s2
    /\ rendered s2 = [lit "A."; lit "C."]
    /\ synthesizing s2 = [lit "C."]
    /\ spoken_text_queue s2 = [lit "B."].
Proof.
  apply (failed_synthesis_lets_later_unit_overtake
    {| avatar_synthesizer := false; is_speaking := true;
       spoken_text_queue := [lit "B."];
       synthesizing := [lit "A."]; rendered := [lit "A."] |}
    (lit "A.") (lit "C.") Exception eq_refl eq_refl eq_refl).
  by right.
Defined.

(** X19.  [stop_speaking] and [disconnect] do not end a synthesis call
    that is outstanding: they empty the queue and clear the flag only.  A
    speakable unit given to [speak] right afterwards is therefore
    synthesized while the earlier call is still outstanding. *)
Theorem stop_speaking_leaves_outstanding_call
    (s : AvatarService) (t u : str) :
  synthesizing s = [t] -> blank u = false ->
  synthesizing (fst (stop_speaking s)) = [t]
  /\ synthesizing (disconnect s) = [t]
  /\ spoken_text_queue (disconnect s) = []
  /\ is_speaking (disconnect s) = false
  /\ avatar_synthesizer (disconnect s) = false
  /\ synthesizing (fst (speak (fst (stop_speaking s)) u)) = [t; u]
  /\ rendered (fst (speak (fst (stop_speaking s)) u)) = rendered s ++ [u].
Proof.
  destruct s as [a sp q sy r]. simpl. intros -> Hu.
  unfold disconnect, stop_speaking, speak, _speak_next. simpl.
  destruct a; simpl; rewrite Hu; simpl; by repeat split.
Qed.

Lemma stop_speaking_leaves_outstanding_call_witness :
  synthesizing (fst (speak (fst (stop_speaking
    {| avatar_synthesizer := true; is_speaking := true;
       spoken_text_queue := [lit "B."];
       synthesizing := [lit "A."]; rendered := [lit "A."] |})) (lit "C.")))
  = [lit "A."; lit "C."].
Proof.
  apply (stop_speaking_leaves_outstanding_call
    {| avatar_synthesizer := true; is_speaking := true;
       spoken_text_queue := [lit "B."];
       synthesizing := [lit "A."]; rendered := [lit "A."] |}
    (lit "A.") (lit "C.") eq_refl eq_refl).
Defined.

End SpeechQueueMore.

Section ConversationProps.
Import Py OpenAI.

Lemma chat_messages (svc : OpenAIService) (turn : str * response) :
  messages (chat svc turn)
  = messages svc ++ mkMessage (lit "user") (fst turn)
      :: match snd turn with
         | Replied reply => [mkMessage (lit "assistant") reply]
         | _ => []
         end.
Proof.
  destruct turn as [q r]. unfold chat. simpl.
  destruct r; simpl; [| done | done]. by rewrite <- app_assoc.
Qed.

Lemma chat_posted (svc : OpenAIService) (turn : str * response) :
  posted (chat svc turn)
  = posted svc ++ [messages svc ++ [mkMessage (lit "user") (fst turn)]].
Proof. destruct turn as [q r]. unfold chat. simpl. by destruct r. Qed.

Lemma chat_data_sources (svc : OpenAIService) (turn : str * response) :
  data_sources (chat svc turn) = data_sources svc.
Proof. destruct turn as [q r]. unfold chat. simpl. by destruct r. Qed.

(** X20.  In a conversation, that is a series of [get_chat_response] calls
    with any outcomes, the message list only grows at its end and the data
    sources stay as they are.  Exactly one request is posted per call, and
    the messages sent with it are the history as it was at that moment,
    ending with the user's query: each is a prefix of the final history. *)
Theorem conversation_appends_and_posts_once_per_turn
    (turns : list (str * response)) (svc : OpenAIService) :
  let svc' := converse svc turns in
  messages svc `prefix_of` messages svc'
  /\ data_sources svc' = data_sources svc
  /\ exists bodies,
       posted svc' = posted svc ++ bodies
       /\ Forall2 (fun body turn =>
                     body `prefix_of` messages svc'
                     /\ last body = Some (mkMessage (lit "user") (fst turn)))
                  bodies turns.
Proof.
  revert svc. induction turns as [|turn turns IH]; intros svc; simpl.
  - split; [done |]. split; [done |]. exists []. by rewrite app_nil_r.
  - destruct (IH (chat svc turn)) as (Hm & Hd & bodies & Hp & Hb).
    fold (converse (chat svc turn) turns) in *.
    assert (Hpre : messages svc ++ [mkMessage (lit "user") (fst turn)]
                   `prefix_of` messages (chat svc turn)).
    { rewrite chat_messages.
      eexists. rewrite <- app_assoc. reflexivity. }
    split.
    { etransitivity; [| exact Hm]. etransitivity; [| exact Hpre].
      by apply prefix_app_r. }
    split; [by rewrite Hd, chat_data_sources |].
    exists ((messages svc ++ [mkMessage (lit "user") (fst turn)]) :: bodies).
    split.
    + rewrite Hp, chat_posted. by rewrite <- app_assoc.
    + constructor; [| exact Hb]. split.
      * by etransitivity.
      * apply last_snoc.
Qed.

Lemma role_count_app (r : str) (a b : list message) :
  role_count r (a ++ b) = (role_count r a + role_count r b)%nat.
Proof. unfold role_count. by rewrite List.filter_app, length_app. Qed.


Lemma do_call_with_data_sources (svc : OpenAIService) (c : call) :
  data_sources svc <> [] ->
  data_sources (do_call svc c) = data_sources svc
  /\ (role_count (lit "system") (messages (do_call svc c))
      <= role_count (lit "system") (messages svc))%nat.
Proof.
  intros Hd. destruct c as [content|content|content| |q r|q s]; simpl.
  - unfold add_system_message.
    destruct (data_sources svc) eqn:E; [done |]. split; [exact E | lia].
  - rewrite role_count_app. split; [done |]. unfold role_count. simpl. lia.
  - rewrite role_count_app. split; [done |]. unfold role_count. simpl. lia.
  - split; [done |]. unfold role_count. simpl. lia.
  - destruct r; simpl; rewrite ?role_count_app; (split; [done |]);
      unfold role_count; simpl; lia.
  - destruct s; simpl; rewrite ?role_count_app; (split; [done |]);
      unfold role_count; simpl; lia.
Qed.

(** X22.  Once a data source is configured, no call of the service other
    than [set_data_sources] changes the data sources, and no system message
    is added to the history any more: [add_system_message] has become
    without effect, also after the messages were cleared. *)
Theorem data_sources_keep_system_messages_out
    (calls : list call) (svc : OpenAIService) :
  data_sources svc <> [] ->
  let svc' := fold_left do_call calls svc in
  data_sources svc' = data_sources svc
  /\ (role_count (lit "system") (messages svc')
      <= role_count (lit "system") (messages svc))%nat.
Proof.
  revert svc. induction calls as [|c calls IH]; intros svc Hd; simpl.
  - split; [done | lia].
  - destruct (do_call_with_data_sources svc c Hd) as [H1 H2].
    destruct (IH (do_call svc c)) as [I1 I2]; [congruence |].
    split; [congruence | lia].
Qed.

Lemma data_sources_keep_system_messages_out_witness :
  let svc := set_data_sources OpenAI.init (lit "https://s.search.windows.net")
               (lit "key") (lit "docs") (lit "role") in
  (role_count (lit "system")
     (messages (fold_left do_call
                  [ClearMessages; AddSystemMessage (lit "You are a tutor.");
                   GetChatResponse (lit "Hi") (Replied (lit "Hello"))]
                  svc))
   <= role_count (lit "system") (messages svc))%nat.
Proof.
  intros svc.
  apply (data_sources_keep_system_messages_out
    [ClearMessages; AddSystemMessage (lit "You are a tutor.");
     GetChatResponse (lit "Hi") (Replied (lit "Hello"))] svc).
  discriminate.
Defined.

End ConversationProps.

Section SettingsProps.
Import Py Settings.

(** X23.  [validate] never answers no: it returns [True] exactly when the
    speech key, the speech region, the OpenAI endpoint, the OpenAI key and
    the OpenAI deployment are all non-empty, and raises [ValueError]
    otherwise. *)
Theorem validate_succeeds_iff_required_settings_present (cfg : Config) :
  (validate cfg = Valid
   <-> speech_key cfg <> [] /\ speech_region cfg <> []
       /\ openai_endpoint cfg <> [] /\ openai_key cfg <> []
       /\ openai_deployment cfg <> [])
  /\ (validate cfg <> Valid -> exists message, validate cfg = ValueError message).
Proof.
  unfold validate.
  destruct (speech_key cfg), (speech_region cfg), (openai_endpoint cfg),
    (openai_key cfg), (openai_deployment cfg); simpl;
    (split; [split; [try discriminate; by repeat split
                    | try done; intros (?&?&?&?&?); done]
            | intros H; try done; by eexists]).
Qed.

End SettingsProps.

Section SessionProps.
Import Py OpenAI App.

Lemma paired_app (h1 h2 : list chat_entry) :
  paired h1 -> paired h2 -> paired (h1 ++ h2).
Proof.
  remember (length h1) as n eqn:Hn. revert h1 Hn.
  induction n as [n IH] using lt_wf_ind. intros h1 Hn H1 H2.
  destruct h1 as [|u [|a h1]]; simpl in *; [done | done |].
  destruct H1 as (Hu & Ha & H1). repeat split; [done | done |].
  apply (IH (length h1)); [lia | done | done | done].
Qed.

Lemma paired_even (h : list chat_entry) :
  paired h -> exists k, length h = (2 * k)%nat.
Proof.
  remember (length h) as n eqn:Hn. revert h Hn.
  induction n as [n IH] using lt_wf_ind. intros h Hn H.
  destruct h as [|u [|a h]]; simpl in *; [by exists 0%nat | done |].
  destruct H as (_ & _ & H).
  destruct (IH (length h) ltac:(lia) h eq_refl H) as [k Hk].
  exists (S k). lia.
Qed.

Lemma respond_history (st : session_state) (text : str) (r : response)
    (t1 t2 : Z) :
  (chat_history (fst (respond st text r t1 t2)) = chat_history st
   /\ message_counter (fst (respond st text r t1 t2)) = message_counter st)
  \/ (exists reply,
        chat_history (fst (respond st text r t1 t2))
        = chat_history st ++ [mkEntry (lit "user") text t1;
                              mkEntry (lit "assistant") reply t2]
        /\ message_counter (fst (respond st text r t1 t2))
           = (message_counter st + 1)%Z).
Proof.
  unfold respond. destruct r; simpl; [right | right | left]; eauto.
Qed.

Lemma handle_history (st : session_state) (a : action) :
  chat_history (handle st a) = []
  /\ message_counter (handle st a) = message_counter st
  \/ chat_history (handle st a) = chat_history st
     /\ message_counter (handle st a) = message_counter st
  \/ exists text reply t1 t2,
       chat_history (handle st a)
       = chat_history st ++ [mkEntry (lit "user") text t1;
                             mkEntry (lit "assistant") reply t2]
       /\ message_counter (handle st a) = (message_counter st + 1)%Z.
Proof.
  destruct a as [| | |text r t1 t2|v r t1 t2]; simpl.
  - right. left. unfold start_session. by destruct (negb _).
  - right. left. unfold stop_session. by destruct (session_active st).
  - unfold clear_chat. destruct (session_active st); simpl; auto.
  - unfold send_message. destruct (_ && _); [| by right; left].
    destruct (respond_history st text r t1 t2) as [H|[reply H]].
    + by right; left.
    + right. right. by exists text, reply, t1, t2.
  - unfold process_voice_input. destruct (bool_decide _); [by right; left |].
    destruct (respond_history (set_last_voice_text st v) v r t1 t2)
      as [H|[reply H]].
    + by right; left.
    + right. right. by exists v, reply, t1, t2.
Qed.

(** X24.  From the start of a session on and through every sequence of
    button presses, typed messages and voice texts, the chat history
    consists of turns, a user entry followed by an assistant entry, and the
    message counter is at least the number of turns shown.  The counter
    never goes down: it is raised by one with every answered turn and by
    nothing else, and clearing the chat does not reset it. *)
Theorem chat_history_is_made_of_turns
    (cfg : Config) (actions : list action) (a : action) :
  let st := fold_left handle actions (init_session_state cfg) in
  paired (chat_history st)
  /\ (Z.of_nat (length (chat_history st)) <= 2 * message_counter st)%Z
  /\ (message_counter st <= message_counter (handle st a)
      <= message_counter st + 1)%Z.
Proof.
  intros st.
  assert (Hinv : paired (chat_history st)
    /\ (Z.of_nat (length (chat_history st)) <= 2 * message_counter st)%Z).
  { subst st. induction actions as [|b actions IH] using rev_ind.
    - simpl. split; [done | lia].
    - rewrite fold_left_app. simpl. destruct IH as [IH1 IH2].
      set (st := fold_left handle actions (init_session_state cfg)) in *.
      destruct (handle_history st b)
        as [[H1 H2]|[[H1 H2]|(text & reply & t1 & t2 & H1 & H2)]];
        rewrite H1, H2.
      + simpl. split; [done |]. lia.
      + by split.
      + split.
        * apply paired_app; [done |]. by simpl.
        * rewrite length_app. simpl. lia. }
  destruct Hinv as [H1 H2]. split; [done |]. split; [done |].
  destruct (handle_history st a)
    as [[_ H]|[[_ H]|(text & reply & t1 & t2 & _ & H)]]; rewrite H; lia.
Qed.

(** X25.  The typed channel is closed while the session is inactive, the
    voice channel is not: on an inactive session a typed message is
    ignored, whereas a voice text that differs from the last one is sent to
    the model, and its reply is put into the chat history and becomes the
    response to speak, while the session stays inactive. *)
Theorem voice_text_is_processed_on_inactive_session
    (st : session_state) (text reply : str) (now_user now_assistant : Z) :
  session_active st = false -> last_voice_text st <> Some text ->
  let st' := fst (process_voice_input st (Some text) (Replied reply)
                    now_user now_assistant) in
  (forall send_clicked typed r,
     send_message st send_clicked typed r now_user now_assistant
     = (st, Untouched))
  /\ session_active st' = false
  /\ messages (openai_service st')
     = messages (openai_service st)
       ++ [mkMessage (lit "user") text; mkMessage (lit "assistant") reply]
  /\ posted (openai_service st')
     = posted (openai_service st)
       ++ [messages (openai_service st) ++ [mkMessage (lit "user") text]]
  /\ chat_history st'
     = chat_history st ++ [mkEntry (lit "user") text now_user;
                           mkEntry (lit "assistant") reply now_assistant]
  /\ current_response st' = reply.
Proof.
  intros Hact Hnew st'. subst st'. split.
  - intros b typed r. unfold send_message. by rewrite Hact.
  - rewrite process_voice_input_new by done. unfold respond. simpl.
    rewrite Hact. by rewrite <- app_assoc.
Qed.

Lemma voice_text_is_processed_on_inactive_session_witness :
  let st := init_session_state
              {| system_prompt := lit "You are an AI assistant.";
                 enable_search := false;
                 cog_search_endpoint := None;
                 cog_search_key := None;
                 cog_search_index := None |} in
  current_response
    (fst (process_voice_input st (Some (lit "Hello")) (Replied (lit "Hi!"))
            1 2))
  = lit "Hi!".
Proof.
  intros st.
  apply (voice_text_is_processed_on_inactive_session
           st (lit "Hello") (lit "Hi!") 1 2); [reflexivity | discriminate].
Defined.

(** X26.  The history expander of an active session shows the most recent
    entries, newest first, and never more than ten: what is shown is the
    reversal of the last ten entries of the chat history, or of all of them
    when there are fewer. *)
Theorem shown_history_is_the_last_ten_reversed (st : session_state) :
  session_active st = true ->
  exists older,
    chat_history st = older ++ rev (shown_history st)
    /\ length (shown_history st) = Nat.min 10 (length (chat_history st))
    /\ head (shown_history st) = last (chat_history st).
Proof.
  intros Hact. unfold shown_history, last_items. rewrite Hact.
  set (h := chat_history st). set (k := (length h - 10)%nat).
  exists (take k h). rewrite rev_involutive, take_drop.
  split; [done |]. split.
  - rewrite length_rev, length_drop. lia.
  - rewrite rev_is_reverse, head_reverse.
    destruct (decide (h = [])) as [->|Hne]; [done |].
    rewrite <- (take_drop k h) at 2.
    rewrite last_app.
    destruct (last (drop k h)) eqn:Hl; [done |].
    apply last_None in Hl. apply (f_equal length) in Hl.
    rewrite length_drop in Hl. simpl in Hl.
    destruct h; [done |]. simpl in *. lia.
Qed.

Lemma shown_history_is_the_last_ten_reversed_witness :
  let st := fst (respond (fst (start_session (init_session_state
              {| system_prompt := lit "You are an AI assistant.";
                 enable_search := false;
                 cog_search_endpoint := None;
                 cog_search_key := None;
                 cog_search_index := None |})))
              (lit "Hi") (Replied (lit "Hello!")) 1 2) in
  exists older,
    chat_history st = older ++ rev (shown_history st)
    /\ length (shown_history st) = Nat.min 10 (length (chat_history st))
    /\ head (shown_history st) = last (chat_history st).
Proof.
  intros st. apply (shown_history_is_the_last_ten_reversed st). reflexivity.
Defined.

(** X27.  Stopping an active session and starting it again changes nothing
    but the response that was waiting to be spoken, which is gone: the chat
    history, the service with its messages, the message counter and the
    last voice text are as before, so a voice text that was the last one
    before the stop is still rejected after the restart. *)
Theorem stop_then_start_keeps_everything_but_the_response
    (st : session_state) :
  session_active st = true ->
  fst (start_session (fst (stop_session st)))
  = {| config := config st;
       openai_service := openai_service st;
       chat_history := chat_history st;
       session_active := true;
       current_response := [];
       message_counter := message_counter st;
       last_voice_text := last_voice_text st |}
  /\ forall t r t1 t2,
       last_voice_text st = Some t ->
       snd (process_voice_input (fst (start_session (fst (stop_session st))))
              (Some t) r t1 t2) = Untouched.
Proof.
  intros Hact.
  assert (H : fst (start_session (fst (stop_session st)))
    = {| config := config st;
         openai_service := openai_service st;
         chat_history := chat_history st;
         session_active := true;
         current_response := [];
         message_counter := message_counter st;
         last_voice_text := last_voice_text st |}).
  { unfold stop_session. rewrite Hact. reflexivity. }
  split; [exact H |]. intros t r t1 t2 Ht. rewrite H.
  by rewrite process_voice_input_repeated.
Qed.

Lemma stop_then_start_keeps_everything_but_the_response_witness :
  let st := fst (respond (fst (start_session (init_session_state
              {| system_prompt := lit "You are an AI assistant.";
                 enable_search := false;
                 cog_search_endpoint := None;
                 cog_search_key := None;
                 cog_search_index := None |})))
              (lit "Hi") (Replied (lit "Hello!")) 1 2) in
  current_response (fst (start_session (fst (stop_session st)))) = [].
Proof.
  intros st.
  destruct (stop_then_start_keeps_everything_but_the_response st eq_refl)
    as [H _].
  by rewrite H.
Defined.

End SessionProps.
